(** * Advanced Multiprocessor Network Simulator: model of [app.py]

    The script builds an interconnection topology with networkx, creates
    packets with random endpoints, and moves every packet one hop per step
    with a congestion-aware, non-backtracking router.  This development
    embeds the script's functions (and the networkx constructions they call)
    and states the properties of the specification over them. *)

From stdpp Require Import base decidable option numbers list sets relations.

Set Default Proof Using "Type".
#[local] Set Warnings "-clear-no-such-hyp".
Open Scope nat_scope.

(** ** Python exceptions *)

Inductive Exn : Set :=
| NetworkXError   (* G.neighbors(n) on a node that is not in G *)
| ValueError.     (* min() of an empty sequence, random.sample too large *)

Inductive Result (A : Type) : Type :=
| Ok (a : A)
| Raise (e : Exn).
Arguments Ok {A} a.
Arguments Raise {A} e.

(** Sequencing: an exception of the first computation ends the whole one.
    The instance gives the [x ← r; k] notation. *)
#[global] Instance Result_bind : MBind Result := λ A B k r,
  match r with
  | Ok a => k a
  | Raise e => Raise e
  end.

(** ** Nodes and graphs

    A node is a tuple of ints: [(i, j)] on the grids, an n-tuple of bits on
    the hypercube.  A [networkx.Graph] keeps [_adj], a dict from node to a
    dict of neighbours; Python dicts iterate in insertion order, and the
    router's tie-break depends on that order, so [_adj] is an association
    list whose keys and neighbour lists are kept in insertion order. *)

Definition node : Type := list nat.
Definition Graph : Type := list (node * list node).

Definition empty_graph : Graph := [].

(** [list(G.nodes())], also the order of [for node in G.nodes()]. *)
Definition nodes (G : Graph) : list node := G.*1.

(** [self._adj.get(u)] *)
Fixpoint adj (G : Graph) (u : node) : option (list node) :=
  match G with
  | [] => None
  | (k, nb) :: G' => if decide (k = u) then Some nb else adj G' u
  end.

(** [G.neighbors(u)]: the keys of [_adj[u]]; a [KeyError] is re-raised as
    [NetworkXError]. *)
Definition neighbors (G : Graph) (u : node) : Result (list node) :=
  match adj G u with
  | Some nb => Ok nb
  | None => Raise NetworkXError
  end.

(** [G.degree[u]] of a node of a graph without self-loops. *)
Definition degree (G : Graph) (u : node) : nat :=
  match adj G u with
  | Some nb => length nb
  | None => 0
  end.

(** [if u not in self._node: self._adj[u] = {}] *)
Definition add_node (u : node) (G : Graph) : Graph :=
  match adj G u with
  | Some _ => G
  | None => G ++ [(u, [])]
  end.

(** [d[v] = {}] on the inner dict: a new key goes last, an old one stays. *)
Definition dict_set (v : node) (nb : list node) : list node :=
  if decide (v ∈ nb) then nb else nb ++ [v].

(** [self._adj[u][v] = datadict] *)
Fixpoint adj_set (u v : node) (G : Graph) : Graph :=
  match G with
  | [] => []
  | (k, nb) :: G' =>
      if decide (k = u) then (k, dict_set v nb) :: G'
      else (k, nb) :: adj_set u v G'
  end.

(** One round of the loop of [add_edges_from]. *)
Definition add_edge (e : node * node) (G : Graph) : Graph :=
  let '(u, v) := e in
  adj_set v u (adj_set u v (add_node v (add_node u G))).

Definition add_nodes_from (ns : list node) (G : Graph) : Graph :=
  foldl (λ G u, add_node u G) G ns.

Definition add_edges_from (es : list (node * node)) (G : Graph) : Graph :=
  foldl (λ G e, add_edge e G) G es.

(** [G.edges()] of an undirected graph: every node in turn reports the
    neighbours that were not reported as a node before. *)
Fixpoint edges_from (seen : list node) (G : Graph) : list (node * node) :=
  match G with
  | [] => []
  | (n, nbrs) :: G' =>
      ((λ nbr, (n, nbr)) <$> filter (λ nbr, nbr ∉ seen) nbrs)
        ++ edges_from (n :: seen) G'
  end.

Definition edges (G : Graph) : list (node * node) := edges_from [] G.

(** ** networkx generators *)

(** [pairwise(range(n))] *)
Definition pairwise_range (n : nat) : list (nat * nat) :=
  (λ i, (i, S i)) <$> seq 0 (n - 1).

(** [pairwise(range(n), cyclic=True)] *)
Definition pairwise_cyclic (n : nat) : list (nat * nat) :=
  match n with
  | 0 => []
  | S m => pairwise_range n ++ [(m, 0)]
  end.

(** [nx.grid_2d_graph(m, n, periodic)]:
<<
    G.add_nodes_from((i, j) for i in rows for j in cols)
    G.add_edges_from(((i, j), (pi, j)) for pi, i in pairwise(rows) for j in cols)
    G.add_edges_from(((i, j), (i, pj)) for i in rows for pj, j in pairwise(cols))
    if periodic_r and len(rows) > 2:
        G.add_edges_from(((first, j), (last, j)) for j in cols)
    if periodic_c and len(cols) > 2:
        G.add_edges_from(((i, first), (i, last)) for i in rows)
>> *)
Definition grid_2d_graph (m n : nat) (periodic : bool) : Graph :=
  let rows := seq 0 m in
  let cols := seq 0 n in
  let G := add_nodes_from (i ← rows; j ← cols; [[i; j]]) empty_graph in
  let G := add_edges_from
             ('(pi, i) ← pairwise_range m; j ← cols; [([i; j], [pi; j])]) G in
  let G := add_edges_from
             (i ← rows; '(pj, j) ← pairwise_range n; [([i; j], [i; pj])]) G in
  let G := if periodic && bool_decide (2 < m)
           then add_edges_from ((λ j, ([0; j], [m - 1; j])) <$> cols) G
           else G in
  let G := if periodic && bool_decide (2 < n)
           then add_edges_from ((λ i, ([i; 0], [i; n - 1])) <$> rows) G
           else G in
  G.

(** [nx.cycle_graph(n)]: nodes [0 .. n-1], edges [pairwise(nodes, cyclic=True)].
    An int node [i] is kept as the one-element tuple [[i]]. *)
Definition cycle_graph (n : nat) : Graph :=
  add_edges_from ((λ '(i, j), ([i], [j])) <$> pairwise_cyclic n)
    (add_nodes_from ((λ i, [i]) <$> seq 0 n) empty_graph).

(** [nx.cartesian_product(G, H)]: nodes [(u, v) for u in G for v in H], then
    the edges of [G] crossed with the nodes of [H], then the nodes of [G]
    crossed with the edges of [H].  The nested tuple [(u, v)] is kept in its
    flattened form [u ++ v]; the factors used here have nodes of one fixed
    length, so no two pairs are identified. *)
Definition cartesian_product (G H : Graph) : Graph :=
  let GH := add_nodes_from (u ← nodes G; v ← nodes H; [u ++ v]) empty_graph in
  let GH := add_edges_from
              ('(u, v) ← edges G; x ← nodes H; [(u ++ x, v ++ x)]) GH in
  let GH := add_edges_from
              (x ← nodes G; '(u, v) ← edges H; [(x ++ u, x ++ v)]) GH in
  GH.

(** [nx.relabel_nodes(G, flatten)] builds a new graph from the nodes and from
    [G.edges()]; with the nested tuples already flat the labels are kept. *)
Definition relabel_nodes (G : Graph) : Graph :=
  add_edges_from (edges G) (add_nodes_from (nodes G) empty_graph).

(** [nx.grid_graph(dim, periodic=True)] for [dim = n * [2]]:
<<
    G = cycle_graph(dim[0])
    for current_dim in dim[1:]:
        G = cartesian_product(cycle_graph(current_dim), G)
    return relabel_nodes(G, flatten)
>> *)
Fixpoint grid_product (k : nat) (G : Graph) : Graph :=
  match k with
  | 0 => G
  | S k' => grid_product k' (cartesian_product (cycle_graph 2) G)
  end.

Definition hypercube_graph (n : nat) : Graph :=
  match n with
  | 0 => empty_graph
  | S k => relabel_nodes (grid_product k (cycle_graph 2))
  end.

(** ** The script: topology *)

Inductive Topology : Set := Mesh | Torus | Hypercube.

Definition generate_topology (topology : Topology) (n : nat) : Graph :=
  match topology with
  | Mesh => grid_2d_graph n n false
  | Torus => grid_2d_graph n n true
  | Hypercube => hypercube_graph n
  end.


(** ** The script: packets *)

Record Packet : Type := mkPacket {
  src : node;
  dst : node;
  current : node;
  path : list node;
  completed : bool;
  blocked_steps : nat
}.

#[global] Instance Packet_eq_dec : EqDecision Packet.
Proof. solve_decision. Defined.

(** Field assignments [p.completed = True], [p.blocked_steps += 1], and
    [p.current = hop; p.path.append(hop)]. *)
Definition set_completed (p : Packet) : Packet :=
  {| src := src p; dst := dst p; current := current p; path := path p;
     completed := true; blocked_steps := blocked_steps p |}.

Definition incr_blocked (p : Packet) : Packet :=
  {| src := src p; dst := dst p; current := current p; path := path p;
     completed := completed p; blocked_steps := blocked_steps p + 1 |}.

Definition move_to (hop : node) (p : Packet) : Packet :=
  {| src := src p; dst := dst p; current := hop; path := path p ++ [hop];
     completed := completed p; blocked_steps := blocked_steps p |}.

(** [Packet.__init__] *)
Definition new_packet (s d : node) : Packet :=
  {| src := s; dst := d; current := s; path := [s];
     completed := false; blocked_steps := 0 |}.

(** [random.sample(population, 2)]: two distinct positions of the population,
    in either order; [ValueError] when the population has fewer than two
    elements.  The generator's draw is the pair [(r1, r2)]: [r1] picks the
    first position, [r2] one of the remaining ones. *)
Definition random_sample2 (population : list node) (draw : nat * nat)
  : Result (node * node) :=
  let len := length population in
  if decide (len < 2) then Raise ValueError
  else
    let i := draw.1 `mod` len in
    let j0 := draw.2 `mod` (len - 1) in
    let j := if decide (j0 < i) then j0 else S j0 in
    match population !! i, population !! j with
    | Some s, Some d => Ok (s, d)
    | _, _ => Raise ValueError
    end.

(** The loop [for _ in range(packets)] that fills [packet_list]; [rnd t] is
    the draw of round [t]. *)
Fixpoint create_packets_from (G : Graph) (rnd : nat → nat * nat)
    (rounds : list nat) (packet_list : list Packet) : Result (list Packet) :=
  match rounds with
  | [] => Ok packet_list
  | t :: rounds' =>
      '(s, d) ← random_sample2 (nodes G) (rnd t);
      create_packets_from G rnd rounds' (packet_list ++ [new_packet s d])
  end.

Definition create_packets (G : Graph) (packets : nat) (rnd : nat → nat * nat)
  : Result (list Packet) :=
  create_packets_from G rnd (seq 0 packets) [].

(** ** The script: router *)

(** [sum(1 for p in packet_list if p.current==n and not p.completed)] *)
Definition congestion (packet_list : list Packet) (n : node) : nat :=
  length (filter (λ p, current p = n ∧ completed p = false) packet_list).

(** Python's [min(xs, key=f)]: the first element whose key is least;
    [ValueError] on an empty sequence. *)
Definition py_min {A : Type} (key : A → nat) (xs : list A) : Result A :=
  match xs with
  | [] => Raise ValueError
  | x :: xs' => Ok (foldl (λ best y, if decide (key y < key best) then y else best) x xs')
  end.

(** [[n for n in G.neighbors(packet.current) if n not in packet.path]] *)
Definition candidates (G : Graph) (packet : Packet) : Result (list node) :=
  nb ← neighbors G (current packet);
  Ok (filter (λ n, n ∉ path packet) nb).

(** [adaptive_next_hop(packet)]: the hop, and the packet after the call (its
    [blocked_steps] may have been incremented). *)
Definition adaptive_next_hop (G : Graph) (packet_list : list Packet)
    (packet : Packet) : Result (node * Packet) :=
  nbs ← candidates G packet;
  match nbs with
  | [] =>
      Ok (current packet, incr_blocked packet)
  | _ :: _ =>
      hop ← py_min (congestion packet_list) nbs;
      Ok (hop, packet)
  end.

(** ** The script: simulation loop *)

Inductive Color : Set := lightblue | orange | red.

(** The colour list built at the top of every iteration. *)
Definition node_colors (G : Graph) (packet_list : list Packet) : list Color :=
  (λ nd,
     let packet_here :=
       filter (λ p, current p = nd ∧ completed p = false) packet_list in
     match packet_here with
     | [] => lightblue
     | _ :: _ =>
         if existsb (λ p, bool_decide (3 ≤ blocked_steps p)) packet_here
         then orange else red
     end) <$> nodes G.

(** The body of [for p in packet_list] for the packet at position [i].  The
    packets are objects shared with [packet_list], which the router reads,
    so the body updates the list in place. *)
Definition move_packet (G : Graph) (packet_list : list Packet) (i : nat)
  : Result (list Packet) :=
  match packet_list !! i with
  | None => Ok packet_list
  | Some p =>
      if completed p then Ok packet_list
      else if decide (current p = dst p)
      then Ok (<[i := set_completed p]> packet_list)
      else
        '(next_hop, p') ← adaptive_next_hop G packet_list p;
        Ok (<[i := move_to next_hop p']> packet_list)
  end.

Fixpoint move_packets_from (G : Graph) (idx : list nat)
    (packet_list : list Packet) : Result (list Packet) :=
  match idx with
  | [] => Ok packet_list
  | i :: idx' =>
      packet_list' ← move_packet G packet_list i;
      move_packets_from G idx' packet_list'
  end.

Definition move_packets (G : Graph) (packet_list : list Packet)
  : Result (list Packet) :=
  move_packets_from G (seq 0 (length packet_list)) packet_list.

(** The state of the run: the packets and the frames drawn so far (one
    [st.pyplot] call per iteration). *)
Record Sim : Type := mkSim {
  packet_list : list Packet;
  frames : list (list Color)
}.

(** One iteration of [for step in range(max_steps)]. *)
Definition sim_step (G : Graph) (s : Sim) : Result Sim :=
  let colors := node_colors G (packet_list s) in
  pl ← move_packets G (packet_list s);
  Ok {| packet_list := pl; frames := frames s ++ [colors] |}.

Fixpoint run_steps (G : Graph) (steps : nat) (s : Sim) : Result Sim :=
  match steps with
  | 0 => Ok s
  | S steps' => s' ← sim_step G s; run_steps G steps' s'
  end.

Definition max_steps (nodes : nat) : nat := nodes * nodes * 2.

(** The summary line of a packet: its path and its status. *)
Inductive Status : Set := Completed | Blocked.

Definition status (p : Packet) : Status :=
  if completed p then Completed else Blocked.

Definition summary (s : Sim) : list (list node * Status) :=
  (λ p, (path p, status p)) <$> packet_list s.

(** The whole script, from the sidebar values and the generator's draws.
    The sidebar offers 2 to 5 nodes per dimension and 1 to 8 packets; the
    functions are embedded for every value. *)
Definition simulate (topology : Topology) (nodes packets : nat)
    (rnd : nat → nat * nat) : Result Sim :=
  let G := generate_topology topology nodes in
  pl ← create_packets G packets rnd;
  run_steps G (max_steps nodes) {| packet_list := pl; frames := [] |}.


(** ** Notions used by the statements *)

(** The packet is routed in an iteration: it is neither skipped as completed
    nor marked completed, so the loop body reaches [adaptive_next_hop]. *)
Definition is_routed (p : Packet) : bool :=
  negb (completed p) && bool_decide (current p ≠ dst p).

(** What one iteration of the loop does to one packet: the four ways through
    the body of [for p in packet_list]. *)
Inductive packet_update (G : Graph) (p : Packet) : Packet → Prop :=
| update_skip :
    completed p = true →
    packet_update G p p
| update_complete :
    completed p = false → current p = dst p →
    packet_update G p (set_completed p)
| update_blocked :
    completed p = false → current p ≠ dst p →
    candidates G p = Ok [] →
    packet_update G p (move_to (current p) (incr_blocked p))
| update_move nbs hop :
    completed p = false → current p ≠ dst p →
    candidates G p = Ok nbs → hop ∈ nbs →
    packet_update G p (move_to hop p).

(** The shape of a path: pairwise distinct nodes that end at the current
    node, then [r] further copies of the current node, which are there only
    when the packet has no candidate left. *)
Definition path_shape (G : Graph) (p : Packet) : Prop :=
  ∃ (d : list node) (r : nat),
    path p = d ++ replicate r (current p)
    ∧ NoDup d
    ∧ last d = Some (current p)
    ∧ (0 < r → candidates G p = Ok []).

(** The neighbour list of a node, empty for a node that is not in the
    graph; [build] is the two-pass construction every generator uses. *)
Definition nbrs (G : Graph) (u : node) : list node := default [] (adj G u).

Definition build (ns : list node) (es : list (node * node)) : Graph :=
  add_edges_from es (add_nodes_from ns empty_graph).

(** The packet stands on a node of the graph. *)
Definition in_graph (G : Graph) (p : Packet) : Prop := current p ∈ nodes G.

(** Every neighbour is a node of the graph. *)
Definition closed (G : Graph) : Prop :=
  ∀ u v, v ∈ nbrs G u → v ∈ nodes G.

(** [nx.is_connected]: any two nodes are joined by a walk. *)
Definition connected (G : Graph) : Prop :=
  ∀ u v, u ∈ nodes G → v ∈ nodes G → rtc (λ a b, b ∈ nbrs G a) u v.

(** After [k] iterations a packet is completed, or stuck away from its
    destination, or has moved [k] times through distinct nodes. *)
Definition progress (G : Graph) (k : nat) (p : Packet) : Prop :=
  in_graph G p
  ∧ (∀ x, x ∈ path p → x ∈ nodes G)
  ∧ (completed p = true
     ∨ (completed p = false ∧ current p ≠ dst p ∧ candidates G p = Ok [])
     ∨ (completed p = false ∧ NoDup (path p) ∧ length (path p) = S k)).

(** The adjacency rules.  On a line of [n] positions, periodic or not,
    position [a] has the positions of [line_nbrs] as neighbours: the one
    below and the one above, where the wrap-around of a periodic line (which
    networkx adds only when [n > 2]) stands in at the two ends. *)
Definition line_nbrs (n : nat) (periodic : bool) (a : nat) : list nat :=
  (if decide (0 < a) then [a - 1]
   else if periodic && bool_decide (2 < n) then [n - 1] else [])
  ++
  (if decide (S a < n) then [S a]
   else if periodic && bool_decide (2 < n) then [0] else []).

(** The nodes and the edges [grid_2d_graph] adds, in its order. *)
Definition grid_nodes (m n : nat) : list node :=
  i ← seq 0 m; j ← seq 0 n; [[i; j]].

Definition grid_edges (m n : nat) (periodic : bool) : list (node * node) :=
  ('(pi, i) ← pairwise_range m; j ← seq 0 n; [([i; j], [pi; j])])
  ++ (i ← seq 0 m; '(pj, j) ← pairwise_range n; [([i; j], [i; pj])])
  ++ (if periodic && bool_decide (2 < m)
      then (λ j, ([0; j], [m - 1; j])) <$> seq 0 n else [])
  ++ (if periodic && bool_decide (2 < n)
      then (λ i, ([i; 0], [i; n - 1])) <$> seq 0 m else []).

(** Grid rule: move along one coordinate, keep the other. *)
Definition grid_nbrs (m n : nat) (periodic : bool) (i j : nat) : list node :=
  ((λ i', [i'; j]) <$> line_nbrs m periodic i)
  ++ ((λ j', [i; j']) <$> line_nbrs n periodic j).

(** Hypercube rule: flip exactly one bit. *)
Fixpoint flips (u : node) : list node :=
  match u with
  | [] => []
  | b :: u' => ((1 - b) :: u') :: ((λ v, b :: v) <$> flips u')
  end.

(** An n-tuple of bits. *)
Definition bits (n : nat) (u : node) : Prop :=
  length u = n ∧ Forall (λ b, b < 2) u.

(** What the construction keeps at every stage: the nodes are the
    [m]-tuples of bits, each adjacent to the tuples that differ from it in
    one position. *)
Definition is_hypercube (m : nat) (G : Graph) : Prop :=
  NoDup (nodes G)
  ∧ (∀ u, u ∈ nodes G ↔ bits m u)
  ∧ (∀ u, NoDup (nbrs G u))
  ∧ (∀ u v, bits m u → (v ∈ nbrs G u ↔ v ∈ flips u)).

(** The congestion estimate in the words of the specification: the number
    of other packets (positions of the list other than [i]) that are not
    completed and whose current node is [y].  [count_others] walks the list
    with the position [j] of its head. *)
Fixpoint count_others (i : nat) (y : node) (j : nat) (pl : list Packet)
  : nat :=
  match pl with
  | [] => 0
  | q :: pl' =>
      (if decide (j ≠ i ∧ completed q = false ∧ current q = y)
       then 1 else 0)
      + count_others i y (S j) pl'
  end.

Definition others_on (pl : list Packet) (i : nat) (y : node) : nat :=
  count_others i y 0 pl.

(** ** Notions used by the further properties *)

(** Consecutive entries of a list of nodes are the same node or the two ends
    of an edge. *)
Definition walk (G : Graph) (l : list node) : Prop :=
  ∀ i a b, l !! i = Some a → l !! S i = Some b → b = a ∨ b ∈ nbrs G a.

(** What the loop keeps for a packet made by [Packet(src, dst)]: the path
    starts at the source and follows edges; its repeated tail has
    [blocked_steps] entries; a packet that was ever blocked is stuck away
    from its destination and never marked; a marked packet stands on its
    destination. *)
Definition sound (G : Graph) (p : Packet) : Prop :=
  head (path p) = Some (src p)
  ∧ walk G (path p)
  ∧ (∃ d, path p = d ++ replicate (blocked_steps p) (current p)
          ∧ NoDup d ∧ last d = Some (current p))
  ∧ (0 < blocked_steps p →
       candidates G p = Ok [] ∧ current p ≠ dst p ∧ completed p = false)
  ∧ (completed p = true → current p = dst p).

(** After [t] iterations a packet that is not marked has been routed [t]
    times; a marked one was routed fewer times. *)
Definition timed (t : nat) (p : Packet) : Prop :=
  (completed p = false → length (path p) = S t)
  ∧ (completed p = true → length (path p) ≤ t).

(** ** Example configurations *)

(** The 2 x 2 mesh, with one packet that has to cross the diagonal. *)
Definition mesh2 : Graph := generate_topology Mesh 2.

Definition diagonal_start : Sim :=
  {| packet_list := [new_packet [0; 0] [1; 1]]; frames := [] |}.

(** A packet on the mesh corner (0, 0) that has visited both neighbours of
    the corner. *)
Definition cornered : Packet :=
  {| src := [1; 0]; dst := [1; 1]; current := [0; 0];
     path := [[1; 0]; [0; 1]; [0; 0]]; completed := false;
     blocked_steps := 0 |}.

(** The state [k] iterations after the cornered packet was alone on the
    mesh. *)
Definition cornered_after (k : nat) : Sim :=
  match run_steps mesh2 k {| packet_list := [cornered]; frames := [] |} with
  | Ok s => s
  | Raise _ => {| packet_list := [cornered]; frames := [] |}
  end.

(** The state [k] iterations after [diagonal_start]. *)
Definition diagonal_after (k : nat) : Sim :=
  match run_steps mesh2 k diagonal_start with
  | Ok s => s
  | Raise _ => diagonal_start
  end.

(** Two packets on the 2 x 2 mesh: the first on (0, 0), the second on
    (1, 0), which is the first neighbour of (0, 0). *)
Definition contended : list Packet :=
  [new_packet [0; 0] [1; 1]; new_packet [1; 0] [0; 1]].

(** A packet that has arrived and has been marked. *)
Definition arrived : Packet :=
  {| src := [0; 0]; dst := [1; 1]; current := [1; 1];
     path := [[0; 0]; [1; 0]; [1; 1]]; completed := true;
     blocked_steps := 0 |}.

(** The 3 x 3 mesh with one packet from (0, 1) to (0, 2): the router sends
    it the long way round, into the corner (0, 0). *)
Definition mesh3 : Graph := generate_topology Mesh 3.

Definition detour_start : Sim :=
  {| packet_list := [new_packet [0; 1] [0; 2]]; frames := [] |}.

Definition detour_after (k : nat) : Sim :=
  match run_steps mesh3 k detour_start with
  | Ok s => s
  | Raise _ => detour_start
  end.

(** The packet of [detour_after k] (the fresh packet if there is none). *)
Definition detour_packet (k : nat) : Packet :=
  default (new_packet [0; 1] [0; 2]) (packet_list (detour_after k) !! 0).

(** The tuples of [n] bits. *)
Fixpoint all_bits (n : nat) : list node :=
  match n with
  | 0 => [[]]
  | S k => ((λ u, 0 :: u) <$> all_bits k) ++ ((λ u, 1 :: u) <$> all_bits k)
  end.

(** * Properties *)

(** Closed decidable facts, by evaluation. *)
Local Ltac by_compute := apply (bool_decide_unpack _); vm_compute; exact I.

(** ** Lists *)

Lemma filter_none {A} (P : A → Prop) `{!∀ x, Decision (P x)} (l : list A) :
  (∀ x, x ∈ l → ¬ P x) → filter P l = [].
Proof.
  induction l as [|x l IH]; intros Hl; [done|].
  rewrite filter_cons_False by (apply Hl; set_solver).
  apply IH. intros y Hy. apply Hl. set_solver.
Qed.

(** ** Graphs under [add_node] and [add_edge] *)

Lemma adj_is_Some (G : Graph) (u : node) : is_Some (adj G u) ↔ u ∈ nodes G.
Proof.
  unfold nodes. induction G as [|[k nb] G IH]; simpl.
  - split; [by intros [? ?]|by intros ?%elem_of_nil].
  - destruct (decide (k = u)) as [->|Hne].
    + split; [intros _; apply list_elem_of_here|eauto].
    + rewrite IH. split; [by apply list_elem_of_further|].
      by intros [?|?]%elem_of_cons.
Qed.

Lemma adj_None (G : Graph) (u : node) : adj G u = None ↔ u ∉ nodes G.
Proof. rewrite <- adj_is_Some, eq_None_not_Some. done. Qed.

Lemma nbrs_nodes (G : Graph) (u v : node) : v ∈ nbrs G u → u ∈ nodes G.
Proof.
  unfold nbrs. intros Hv. apply adj_is_Some.
  destruct (adj G u); [eauto|by apply elem_of_nil in Hv].
Qed.

Lemma neighbors_nbrs (G : Graph) (u : node) :
  u ∈ nodes G → neighbors G u = Ok (nbrs G u).
Proof.
  intros [nb Hnb]%adj_is_Some. unfold neighbors, nbrs. by rewrite Hnb.
Qed.

Lemma degree_nbrs (G : Graph) (u : node) : degree G u = length (nbrs G u).
Proof. unfold degree, nbrs. by destruct (adj G u). Qed.

Lemma adj_app (G G' : Graph) (u : node) :
  adj (G ++ G') u = match adj G u with Some nb => Some nb | None => adj G' u end.
Proof.
  induction G as [|[k nb] G IH]; simpl; [done|].
  by destruct (decide (k = u)).
Qed.

Lemma nodes_add_node (a : node) (G : Graph) (x : node) :
  x ∈ nodes (add_node a G) ↔ x ∈ nodes G ∨ x = a.
Proof.
  unfold add_node. destruct (adj G a) as [nb|] eqn:Ha.
  - split; [by left|]. intros [?| ->]; [done|].
    apply adj_is_Some. eauto.
  - unfold nodes. rewrite fmap_app, elem_of_app. simpl.
    by rewrite list_elem_of_singleton.
Qed.

Lemma NoDup_nodes_add_node (a : node) (G : Graph) :
  NoDup (nodes G) → NoDup (nodes (add_node a G)).
Proof.
  intros Hnd. unfold add_node. destruct (adj G a) as [nb|] eqn:Ha; [done|].
  unfold nodes. rewrite fmap_app. apply NoDup_app. split_and!; [done| |].
  - intros x Hx ->%list_elem_of_singleton. by apply adj_None in Ha.
  - apply NoDup_singleton.
Qed.

Lemma nbrs_add_node (a : node) (G : Graph) (u : node) :
  nbrs (add_node a G) u = nbrs G u.
Proof.
  unfold nbrs, add_node. destruct (adj G a) as [nb|] eqn:Ha; [done|].
  rewrite adj_app. destruct (adj G u); [done|]. simpl.
  by destruct (decide (a = u)).
Qed.

Lemma nodes_adj_set (a b : node) (G : Graph) :
  nodes (adj_set a b G) = nodes G.
Proof.
  unfold nodes. induction G as [|[k nb] G IH]; simpl; [done|].
  destruct (decide (k = a)); simpl; [done|]. f_equal. apply IH.
Qed.

Lemma nbrs_adj_set (a b : node) (G : Graph) (u : node) :
  a ∈ nodes G →
  nbrs (adj_set a b G) u
  = if decide (a = u) then dict_set b (nbrs G u) else nbrs G u.
Proof.
  unfold nbrs, nodes. induction G as [|[k nb] G IH]; simpl.
  - by intros ?%elem_of_nil.
  - intros Ha. destruct (decide (k = a)) as [->|Hka]; simpl.
    + by destruct (decide (a = u)) as [->|Hau].
    + apply elem_of_cons in Ha as [->|Ha]; [done|].
      destruct (decide (k = u)) as [->|Hku]; simpl.
      * by rewrite decide_False by done.
      * by apply IH.
Qed.

Lemma elem_of_dict_set (b : node) (nb : list node) (v : node) :
  v ∈ dict_set b nb ↔ v ∈ nb ∨ v = b.
Proof.
  unfold dict_set. destruct (decide (b ∈ nb)).
  - naive_solver.
  - by rewrite elem_of_app, list_elem_of_singleton.
Qed.

Lemma NoDup_dict_set (b : node) (nb : list node) :
  NoDup nb → NoDup (dict_set b nb).
Proof.
  intros Hnd. unfold dict_set. destruct (decide (b ∈ nb)); [done|].
  apply NoDup_app. split_and!; [done| |apply NoDup_singleton].
  by intros x Hx ->%list_elem_of_singleton.
Qed.

Lemma nodes_add_edge (a b : node) (G : Graph) (x : node) :
  x ∈ nodes (add_edge (a, b) G) ↔ x ∈ nodes G ∨ x = a ∨ x = b.
Proof.
  unfold add_edge. rewrite !nodes_adj_set, !nodes_add_node. naive_solver.
Qed.

Lemma NoDup_nodes_add_edge (e : node * node) (G : Graph) :
  NoDup (nodes G) → NoDup (nodes (add_edge e G)).
Proof.
  destruct e as [a b]. intros Hnd. unfold add_edge.
  rewrite !nodes_adj_set. by do 2 apply NoDup_nodes_add_node.
Qed.

Lemma nbrs_add_edge (a b : node) (G : Graph) (u : node) :
  nbrs (add_edge (a, b) G) u
  = let nb := if decide (a = u) then dict_set b (nbrs G u) else nbrs G u in
    if decide (b = u) then dict_set a nb else nb.
Proof.
  unfold add_edge.
  rewrite nbrs_adj_set.
  2:{ rewrite nodes_adj_set, nodes_add_node. by right. }
  rewrite nbrs_adj_set.
  2:{ rewrite !nodes_add_node. by left; right. }
  by rewrite !nbrs_add_node.
Qed.

Lemma elem_of_nbrs_add_edge (a b : node) (G : Graph) (u v : node) :
  v ∈ nbrs (add_edge (a, b) G) u
  ↔ v ∈ nbrs G u ∨ (u = a ∧ v = b) ∨ (u = b ∧ v = a).
Proof.
  rewrite nbrs_add_edge. simpl.
  destruct (decide (b = u)) as [->|Hb], (decide (a = u)) as [->|Ha];
    rewrite ?elem_of_dict_set; naive_solver.
Qed.

Lemma NoDup_nbrs_add_edge (e : node * node) (G : Graph) (u : node) :
  NoDup (nbrs G u) → NoDup (nbrs (add_edge e G) u).
Proof.
  destruct e as [a b]. intros Hnd. rewrite nbrs_add_edge. simpl.
  destruct (decide (b = u)), (decide (a = u));
    repeat apply NoDup_dict_set; done.
Qed.

(** The two passes of a generator. *)
Lemma add_nodes_from_spec (ns : list node) (G : Graph) :
  (NoDup (nodes G) → NoDup (nodes (add_nodes_from ns G)))
  ∧ (∀ x, x ∈ nodes (add_nodes_from ns G) ↔ x ∈ nodes G ∨ x ∈ ns)
  ∧ (∀ u, nbrs (add_nodes_from ns G) u = nbrs G u).
Proof.
  unfold add_nodes_from. revert G.
  induction ns as [|a ns IH]; intros G; simpl.
  - split_and!; [done| |done]. intros x. rewrite elem_of_nil. naive_solver.
  - destruct (IH (add_node a G)) as (IH1 & IH2 & IH3). split_and!.
    + intros Hnd. by apply IH1, NoDup_nodes_add_node.
    + intros x. rewrite IH2, nodes_add_node, elem_of_cons. naive_solver.
    + intros u. by rewrite IH3, nbrs_add_node.
Qed.

Lemma add_edges_from_spec (es : list (node * node)) (G : Graph) :
  (NoDup (nodes G) → NoDup (nodes (add_edges_from es G)))
  ∧ (∀ x, x ∈ nodes (add_edges_from es G)
          ↔ x ∈ nodes G ∨ x ∈ es.*1 ∨ x ∈ es.*2)
  ∧ (∀ u, NoDup (nbrs G u) → NoDup (nbrs (add_edges_from es G) u))
  ∧ (∀ u v, v ∈ nbrs (add_edges_from es G) u
            ↔ v ∈ nbrs G u ∨ (u, v) ∈ es ∨ (v, u) ∈ es).
Proof.
  unfold add_edges_from. revert G.
  induction es as [|[a b] es IH]; intros G; simpl.
  - split_and!; [done| |done|].
    + intros x. rewrite !elem_of_nil. tauto.
    + intros u v. rewrite !elem_of_nil. tauto.
  - destruct (IH (add_edge (a, b) G)) as (IH1 & IH2 & IH3 & IH4). split_and!.
    + intros Hnd. by apply IH1, NoDup_nodes_add_edge.
    + intros x. rewrite IH2, nodes_add_edge, !elem_of_cons. naive_solver.
    + intros u Hnd. by apply IH3, NoDup_nbrs_add_edge.
    + intros u v. rewrite IH4, elem_of_nbrs_add_edge, !elem_of_cons.
      naive_solver.
Qed.

Lemma build_spec (ns : list node) (es : list (node * node)) :
  NoDup (nodes (build ns es))
  ∧ (∀ x, x ∈ nodes (build ns es) ↔ x ∈ ns ∨ x ∈ es.*1 ∨ x ∈ es.*2)
  ∧ (∀ u, NoDup (nbrs (build ns es) u))
  ∧ (∀ u v, v ∈ nbrs (build ns es) u ↔ (u, v) ∈ es ∨ (v, u) ∈ es).
Proof.
  unfold build.
  destruct (add_nodes_from_spec ns empty_graph) as (N1 & N2 & N3).
  destruct (add_edges_from_spec es (add_nodes_from ns empty_graph))
    as (E1 & E2 & E3 & E4).
  split_and!.
  - apply E1, N1. apply NoDup_nil_2.
  - intros x. rewrite E2, N2. change (nodes empty_graph) with (@nil node).
    rewrite elem_of_nil. naive_solver.
  - intros u. apply E3. rewrite N3. apply NoDup_nil_2.
  - intros u v. rewrite E4, N3. change (nbrs empty_graph u) with (@nil node).
    rewrite elem_of_nil. naive_solver.
Qed.

Lemma build_closed (ns : list node) (es : list (node * node)) :
  closed (build ns es).
Proof.
  destruct (build_spec ns es) as (_ & Hn & _ & He).
  intros u v Hv. apply Hn. apply He in Hv as [Hv|Hv].
  - right; right. apply list_elem_of_fmap. by exists (u, v).
  - right; left. apply list_elem_of_fmap. by exists (v, u).
Qed.

Lemma build_symmetric (ns : list node) (es : list (node * node)) (u v : node) :
  v ∈ nbrs (build ns es) u → u ∈ nbrs (build ns es) v.
Proof.
  destruct (build_spec ns es) as (_ & _ & _ & He).
  rewrite !He. naive_solver.
Qed.

Lemma build_app (ns : list node) (es es' : list (node * node)) :
  add_edges_from es' (build ns es) = build ns (es ++ es').
Proof. unfold build, add_edges_from. by rewrite foldl_app. Qed.

(** ** The grids *)

Local Ltac arith := split_and!; first [done | lia].

Lemma grid_2d_graph_build (m n : nat) (periodic : bool) :
  grid_2d_graph m n periodic
  = build (grid_nodes m n) (grid_edges m n periodic).
Proof.
  unfold grid_2d_graph, grid_nodes, grid_edges.
  change (add_edges_from ?es2 (add_edges_from ?es1 (add_nodes_from ?ns empty_graph)))
    with (add_edges_from es2 (build ns es1)).
  rewrite build_app.
  destruct (periodic && bool_decide (2 < m)),
           (periodic && bool_decide (2 < n));
    rewrite ?build_app, <- ?app_assoc, ?app_nil_r; reflexivity.
Qed.

Lemma grid_nodes_spec (m n : nat) (x : node) :
  x ∈ grid_nodes m n ↔ ∃ i j, i < m ∧ j < n ∧ x = [i; j].
Proof.
  unfold grid_nodes. set_unfold. split.
  - intros (i & (j & -> & Hj) & Hi). exists i, j. split_and!; [lia..|done].
  - intros (i & j & Hi & Hj & ->).
    exists i. split; [exists j; split; [done|lia]|lia].
Qed.

Lemma grid_edges_spec (m n : nat) (periodic : bool) (u v : node) :
  (u, v) ∈ grid_edges m n periodic
  ↔ ∃ i j,
      (S i < m ∧ j < n ∧ u = [S i; j] ∧ v = [i; j])
      ∨ (i < m ∧ S j < n ∧ u = [i; S j] ∧ v = [i; j])
      ∨ (periodic = true ∧ 2 < m ∧ j < n ∧ u = [0; j] ∧ v = [m - 1; j])
      ∨ (periodic = true ∧ 2 < n ∧ i < m ∧ u = [i; 0] ∧ v = [i; n - 1]).
Proof.
  unfold grid_edges, pairwise_range. rewrite !elem_of_app. split.
  - intros [H|[H|[H|H]]].
    + apply list_elem_of_bind in H as ([pi i] & H & Hp).
      set_unfold. destruct H as (j & [= -> ->] & Hj).
      destruct Hp as (i' & [= -> ->] & Hi). exists i', j. left. split_and!; done || lia.
    + apply list_elem_of_bind in H as (i & H & Hi).
      apply list_elem_of_bind in H as ([pj j] & H & Hp).
      set_unfold. destruct H as [[= -> ->]|[]].
      destruct Hp as (j' & [= -> ->] & Hj). exists i, j'. right; left. split_and!; done || lia.
    + destruct periodic; simpl in H; [|by apply elem_of_nil in H].
      case_bool_decide; [|by apply elem_of_nil in H].
      set_unfold. destruct H as (j & [= -> ->] & Hj).
      exists 0, j. right; right; left. split_and!; [done|lia..|done|done].
    + destruct periodic; simpl in H; [|by apply elem_of_nil in H].
      case_bool_decide; [|by apply elem_of_nil in H].
      set_unfold. destruct H as (i & [= -> ->] & Hi).
      exists i, 0. right; right; right. split_and!; [done|lia..|done|done].
  - intros (i & j & [H|[H|[H|H]]]).
    + left. destruct H as (Hi & Hj & -> & ->).
      apply list_elem_of_bind. exists (i, S i). set_unfold.
      split; [exists j; split; [done|lia]|exists i; split; [done|lia]].
    + right; left. destruct H as (Hi & Hj & -> & ->).
      apply list_elem_of_bind. exists i. split; [|set_unfold; lia].
      apply list_elem_of_bind. exists (j, S j). set_unfold.
      split; [by left|exists j; split; [done|lia]].
    + right; right; left. destruct H as (-> & Hm & Hj & -> & ->). simpl.
      rewrite bool_decide_eq_true_2 by done. set_unfold.
      exists j. split; [done|lia].
    + right; right; right. destruct H as (-> & Hn & Hi & -> & ->). simpl.
      rewrite bool_decide_eq_true_2 by done. set_unfold.
      exists i. split; [done|lia].
Qed.

Lemma line_nbrs_spec (n : nat) (periodic : bool) (a b : nat) :
  a < n →
  b ∈ line_nbrs n periodic a
  ↔ (S a = b ∧ b < n) ∨ (S b = a)
    ∨ (periodic = true ∧ 2 < n ∧ ((a = 0 ∧ b = n - 1) ∨ (b = 0 ∧ a = n - 1))).
Proof.
  intros Ha. unfold line_nbrs.
  destruct periodic; simpl; repeat case_decide; repeat case_bool_decide;
    set_unfold; lia.
Qed.

Lemma line_nbrs_lt (n : nat) (periodic : bool) (a b : nat) :
  a < n → b ∈ line_nbrs n periodic a → b < n ∧ b ≠ a.
Proof. intros Ha Hb. apply line_nbrs_spec in Hb; [lia|done]. Qed.

Lemma NoDup_line_nbrs (n : nat) (periodic : bool) (a : nat) :
  a < n → NoDup (line_nbrs n periodic a).
Proof.
  intros Ha. unfold line_nbrs.
  destruct periodic; simpl; repeat case_decide; repeat case_bool_decide;
    simpl; repeat (apply NoDup_cons; split); try apply NoDup_nil_2;
    set_unfold; lia.
Qed.

Lemma NoDup_grid_nbrs (m n : nat) (periodic : bool) (i j : nat) :
  i < m → j < n → NoDup (grid_nbrs m n periodic i j).
Proof.
  intros Hi Hj. unfold grid_nbrs. apply NoDup_app. split_and!.
  - apply NoDup_fmap_2; [by intros ?? [=]|]. by apply NoDup_line_nbrs.
  - intros x (i' & -> & Hi')%list_elem_of_fmap (j' & [= ->] & Hj')%list_elem_of_fmap.
    apply line_nbrs_lt in Hi'; [lia|done].
  - apply NoDup_fmap_2; [by intros ?? [=]|]. by apply NoDup_line_nbrs.
Qed.

Lemma grid_nbrs_spec (m n : nat) (periodic : bool) (i j : nat) (v : node) :
  i < m → j < n →
  v ∈ grid_nbrs m n periodic i j
  ↔ (([i; j], v) ∈ grid_edges m n periodic
     ∨ (v, [i; j]) ∈ grid_edges m n periodic).
Proof.
  intros Hi Hj. unfold grid_nbrs.
  rewrite elem_of_app, !list_elem_of_fmap, !grid_edges_spec. split.
  - intros [(i' & -> & H)|(j' & -> & H)].
    + apply line_nbrs_spec in H; [|done].
      destruct H as [[<- H]|[<-|(-> & Hm & [[-> ->]|[-> ->]])]].
      * right. exists i, j. left. arith.
      * left. exists i', j. left. arith.
      * left. exists 0, j. right; right; left. arith.
      * right. exists 0, j. right; right; left. arith.
    + apply line_nbrs_spec in H; [|done].
      destruct H as [[<- H]|[<-|(-> & Hm & [[-> ->]|[-> ->]])]].
      * right. exists i, j. right; left. arith.
      * left. exists i, j'. right; left. arith.
      * left. exists i, 0. right; right; right. arith.
      * right. exists i, 0. right; right; right. arith.
  - intros [(a & b & H)|(a & b & H)].
    + destruct H as [(Ha & Hb & [= -> ->] & ->)|[(Ha & Hb & [= -> ->] & ->)
        |[(-> & Hm & Hb & [= -> ->] & ->)|(-> & Hm & Hb & [= -> ->] & ->)]]].
      * left. exists a. split; [done|]. apply line_nbrs_spec; [done|]. lia.
      * right. exists b. split; [done|]. apply line_nbrs_spec; [done|]. lia.
      * left. eexists. split; [done|]. apply line_nbrs_spec; [done|]. lia.
      * right. eexists. split; [done|]. apply line_nbrs_spec; [done|]. lia.
    + destruct H as [(Ha & Hb & -> & [= -> ->])|[(Ha & Hb & -> & [= -> ->])
        |[(-> & Hm & Hb & -> & [= -> ->])|(-> & Hm & Hb & -> & [= -> ->])]]].
      * left. eexists. split; [done|]. apply line_nbrs_spec; [lia|]. lia.
      * right. eexists. split; [done|]. apply line_nbrs_spec; [lia|]. lia.
      * left. eexists. split; [done|]. apply line_nbrs_spec; [lia|]. lia.
      * right. eexists. split; [done|]. apply line_nbrs_spec; [lia|]. lia.
Qed.

(** The nodes of a grid, and the neighbours networkx gives each of them. *)
Lemma grid_2d_graph_nodes (m n : nat) (periodic : bool) (x : node) :
  x ∈ nodes (grid_2d_graph m n periodic)
  ↔ ∃ i j, i < m ∧ j < n ∧ x = [i; j].
Proof.
  rewrite grid_2d_graph_build.
  destruct (build_spec (grid_nodes m n) (grid_edges m n periodic))
    as (_ & -> & _ & _).
  rewrite grid_nodes_spec. split; [|by left].
  intros [H|[H|H]]; [done|..];
    apply list_elem_of_fmap in H as ([u v] & -> & H); simpl;
    apply grid_edges_spec in H as (i & j & H).
  - destruct H as [(? & ? & -> & _)|[(? & ? & -> & _)
      |[(_ & ? & ? & -> & _)|(_ & ? & ? & -> & _)]]];
      eexists _, _; (split_and!; [| |reflexivity]); lia.
  - destruct H as [(? & ? & _ & ->)|[(? & ? & _ & ->)
      |[(_ & ? & ? & _ & ->)|(_ & ? & ? & _ & ->)]]];
      eexists _, _; (split_and!; [| |reflexivity]); lia.
Qed.

Lemma grid_2d_graph_nbrs (m n : nat) (periodic : bool) (i j : nat) :
  i < m → j < n →
  nbrs (grid_2d_graph m n periodic) [i; j] ≡ₚ grid_nbrs m n periodic i j.
Proof.
  intros Hi Hj. rewrite grid_2d_graph_build.
  destruct (build_spec (grid_nodes m n) (grid_edges m n periodic))
    as (_ & _ & Hnd & He).
  apply NoDup_Permutation; [done|by apply NoDup_grid_nbrs|].
  intros v. by rewrite He, grid_nbrs_spec.
Qed.

Lemma grid_2d_graph_degree (m n : nat) (periodic : bool) (i j : nat) :
  i < m → j < n →
  degree (grid_2d_graph m n periodic) [i; j]
  = length (line_nbrs m periodic i) + length (line_nbrs n periodic j).
Proof.
  intros Hi Hj.
  rewrite degree_nbrs, (grid_2d_graph_nbrs m n periodic i j Hi Hj).
  unfold grid_nbrs. by rewrite length_app, !length_fmap.
Qed.

(** ** Walks *)

Lemma rtc_symmetric {A} (R : relation A) (x y : A) :
  (∀ a b, R a b → R b a) → rtc R x y → rtc R y x.
Proof.
  intros Hsym. induction 1 as [|a b c Hab _ IH]; [done|].
  eapply rtc_r; [exact IH|]. by apply Hsym.
Qed.

(** A symmetric graph whose nodes all reach one hub is connected. *)
Lemma connected_hub (G : Graph) (hub : node) :
  (∀ u v, v ∈ nbrs G u → u ∈ nbrs G v) →
  (∀ u, u ∈ nodes G → rtc (λ a b, b ∈ nbrs G a) u hub) →
  connected G.
Proof.
  intros Hsym Hhub u v Hu Hv.
  etrans; [by apply Hhub|].
  apply rtc_symmetric; [|by apply Hhub].
  intros a b. apply Hsym.
Qed.

Lemma grid_2d_graph_adj (m n : nat) (periodic : bool) (i j : nat) (v : node) :
  i < m → j < n →
  v ∈ nbrs (grid_2d_graph m n periodic) [i; j]
  ↔ v ∈ grid_nbrs m n periodic i j.
Proof. intros Hi Hj. by rewrite (grid_2d_graph_nbrs m n periodic i j). Qed.

Lemma grid_2d_graph_connected (m n : nat) (periodic : bool) :
  connected (grid_2d_graph m n periodic).
Proof.
  apply (connected_hub _ [0; 0]).
  { rewrite grid_2d_graph_build. apply build_symmetric. }
  intros u (i & j & Hi & Hj & ->)%grid_2d_graph_nodes.
  transitivity [0; j].
  - clear -Hi Hj. induction i as [|i IH]; [done|].
    eapply rtc_l; [|apply IH; lia]. simpl.
    apply grid_2d_graph_adj; [done..|].
    unfold grid_nbrs. apply elem_of_app. left.
    apply list_elem_of_fmap. exists i. split; [done|].
    apply line_nbrs_spec; [done|]. by right; left.
  - clear -Hi Hj. assert (0 < m) as H0 by lia. clear Hi.
    induction j as [|j IH]; [done|].
    eapply rtc_l; [|apply IH; lia]. simpl.
    apply grid_2d_graph_adj; [done..|].
    unfold grid_nbrs. apply elem_of_app. right.
    apply list_elem_of_fmap. exists j. split; [done|].
    apply line_nbrs_spec; [done|]. by right; left.
Qed.

(** ** [G.edges()] *)

Lemma adj_split (G : Graph) (u : node) (nb : list node) :
  adj G u = Some nb ↔
  ∃ G1 G2, G = G1 ++ (u, nb) :: G2 ∧ u ∉ (G1.*1).
Proof.
  split.
  - induction G as [|[k nbk] G IH]; simpl; [done|].
    destruct (decide (k = u)) as [->|Hne].
    + intros [= ->]. exists [], G. split; [done|]. apply not_elem_of_nil.
    + intros (G1 & G2 & -> & Hu)%IH. exists ((k, nbk) :: G1), G2.
      split; [done|]. simpl. by apply not_elem_of_cons.
  - intros (G1 & G2 & -> & Hu). induction G1 as [|[k nbk] G1 IH]; simpl.
    + by rewrite decide_True.
    + simpl in Hu. apply not_elem_of_cons in Hu as [Hk Hu].
      rewrite decide_False by done. by apply IH.
Qed.

Lemma elem_of_edges_from (seen : list node) (G : Graph) (u v : node) :
  (u, v) ∈ edges_from seen G ↔
  ∃ G1 nb G2,
    G = G1 ++ (u, nb) :: G2 ∧ v ∈ nb ∧ (v ∉ seen) ∧ v ∉ (G1.*1).
Proof.
  revert seen. induction G as [|[k nbk] G IH]; intros seen; simpl.
  - rewrite elem_of_nil. split; [done|].
    intros (G1 & nb & G2 & HG & _). by destruct G1.
  - rewrite elem_of_app, list_elem_of_fmap, IH. split.
    + intros [(w & [= -> ->] & Hw)|(G1 & nb & G2 & -> & Hv & Hs & H1)].
      * apply list_elem_of_filter in Hw as [Hs Hw].
        exists [], nbk, G. split_and!; [done..|apply not_elem_of_nil].
      * apply not_elem_of_cons in Hs as [Hk Hs].
        exists ((k, nbk) :: G1), nb, G2. split_and!; [done..|].
        simpl. by apply not_elem_of_cons.
    + intros (G1 & nb & G2 & HG & Hv & Hs & H1).
      destruct G1 as [|[k' nbk'] G1]; simpl in HG.
      * injection HG as -> -> ->. left. exists v. split; [done|].
        by apply list_elem_of_filter.
      * injection HG as -> -> ->. right. simpl in H1.
        apply not_elem_of_cons in H1 as [Hk H1].
        exists G1, nb, G2. split_and!; [done..| |done].
        by apply not_elem_of_cons.
Qed.

(** In a symmetric graph every adjacency is reported once, from the
    endpoint that comes first among the nodes. *)
Lemma edges_spec (G : Graph) (u v : node) :
  NoDup (nodes G) →
  (∀ a b, b ∈ nbrs G a → a ∈ nbrs G b) →
  ((u, v) ∈ edges G ∨ (v, u) ∈ edges G) ↔ v ∈ nbrs G u.
Proof.
  intros Hnd Hsym.
  assert (Hfwd : ∀ a b, (a, b) ∈ edges G → b ∈ nbrs G a).
  { intros a b (G1 & nb & G2 & HG & Hb & _ & _)%elem_of_edges_from.
    assert (adj G a = Some nb) as Ha.
    { apply adj_split. exists G1, G2. split; [done|].
      unfold nodes in Hnd. rewrite HG, fmap_app in Hnd.
      apply NoDup_app in Hnd as (_ & Hnd & _).
      intros Hin. apply (Hnd a Hin). simpl. apply list_elem_of_here. }
    unfold nbrs. by rewrite Ha. }
  split.
  - intros [H|H]; [by apply Hfwd|]. by apply Hsym, Hfwd.
  - intros Hv. assert (u ∈ nbrs G v) as Hu by (by apply Hsym).
    unfold nbrs in Hv, Hu.
    destruct (adj G u) as [nbu|] eqn:Hau; [|by apply elem_of_nil in Hv].
    destruct (adj G v) as [nbv|] eqn:Hav; [|by apply elem_of_nil in Hu].
    simpl in Hv, Hu.
    apply adj_split in Hau as (G1 & G2 & HG & Hu1).
    destruct (decide (v ∈ G1.*1)) as [Hv1|Hv1].
    + right. apply elem_of_edges_from.
      apply adj_split in Hav as (G1' & G2' & HG' & Hv1').
      exists G1', nbv, G2'. split_and!; [done..|apply not_elem_of_nil|].
      intros Hu1'. apply Hu1.
      (* [v] is a key of [G1], so its first entry lies inside [G1] *)
      assert (∃ G1b, G1 = G1' ++ (v, nbv) :: G1b) as [G1b ->].
      { clear -HG HG' Hv1 Hv1'. subst G. revert G1 HG' Hv1.
        induction G1' as [|[k nbk] G1' IH]; intros G1 HG Hv1.
        - destruct G1 as [|[k1 nb1] G1]; [by apply elem_of_nil in Hv1|].
          simpl in HG. injection HG as -> -> _. by exists G1.
        - destruct G1 as [|[k1 nb1] G1]; [by apply elem_of_nil in Hv1|].
          simpl in HG. injection HG as -> -> HG.
          simpl in Hv1, Hv1'. apply not_elem_of_cons in Hv1' as [Hk Hv1'].
          apply elem_of_cons in Hv1 as [->|Hv1]; [done|].
          destruct (IH Hv1' G1 HG Hv1) as [G1b ->]. by exists G1b. }
      rewrite fmap_app. apply elem_of_app. by left.
    + left. apply elem_of_edges_from.
      exists G1, nbu, G2. split_and!; [done..|apply not_elem_of_nil|done].
Qed.

Lemma edges_endpoints (G : Graph) (u v : node) :
  NoDup (nodes G) →
  (∀ a b, b ∈ nbrs G a → a ∈ nbrs G b) →
  (u, v) ∈ edges G → u ∈ nodes G ∧ v ∈ nodes G.
Proof.
  intros Hnd Hsym He.
  assert (v ∈ nbrs G u) as Hv by (apply edges_spec; auto).
  split; [by eapply nbrs_nodes|]. apply Hsym in Hv. by eapply nbrs_nodes.
Qed.

(** Relabelling keeps the nodes and the adjacency (not the order in which
    a node lists its neighbours). *)
Lemma relabel_nodes_spec (G : Graph) :
  NoDup (nodes G) →
  (∀ a b, b ∈ nbrs G a → a ∈ nbrs G b) →
  NoDup (nodes (relabel_nodes G))
  ∧ (∀ x, x ∈ nodes (relabel_nodes G) ↔ x ∈ nodes G)
  ∧ (∀ u, NoDup (nbrs (relabel_nodes G) u))
  ∧ (∀ u v, v ∈ nbrs (relabel_nodes G) u ↔ v ∈ nbrs G u).
Proof.
  intros Hnd Hsym.
  change (relabel_nodes G) with (build (nodes G) (edges G)).
  destruct (build_spec (nodes G) (edges G)) as (B1 & B2 & B3 & B4).
  split_and!; [done| |done|].
  - intros x. rewrite B2. split; [|by left].
    intros [?|[H|H]]; [done|..];
      apply list_elem_of_fmap in H as ([a b] & -> & H);
      by apply edges_endpoints in H as [? ?].
  - intros u v. rewrite B4. by apply edges_spec.
Qed.

(** ** The hypercube *)

Lemma bits_cons (m b : nat) (u : node) :
  bits (S m) (b :: u) ↔ b < 2 ∧ bits m u.
Proof.
  unfold bits. simpl. rewrite Forall_cons. split.
  - intros ([= ?] & ? & ?). done.
  - intros (? & <- & ?). done.
Qed.

Lemma bits_inv_S (m : nat) (x : node) :
  bits (S m) x ↔ ∃ b u, x = b :: u ∧ b < 2 ∧ bits m u.
Proof.
  split.
  - destruct x as [|b u]; [by intros [[=] _]|].
    intros ?%bits_cons. by exists b, u.
  - intros (b & u & -> & H). by apply bits_cons.
Qed.

Lemma length_flips (u : node) : length (flips u) = length u.
Proof.
  induction u as [|b u IH]; [done|].
  change (S (length ((λ v, b :: v) <$> flips u)) = S (length u)).
  rewrite length_fmap. f_equal. exact IH.
Qed.

Lemma flips_bits (m : nat) (u v : node) :
  bits m u → v ∈ flips u → bits m v ∧ u ∈ flips v.
Proof.
  revert m v. induction u as [|b u IH]; intros m v Hu Hv; simpl in Hv.
  - by apply elem_of_nil in Hv.
  - destruct m as [|m]; [by destruct Hu as [[=] _]|].
    apply bits_cons in Hu as [Hb Hu].
    apply elem_of_cons in Hv as [->|(w & -> & Hw)%list_elem_of_fmap].
    + split; [apply bits_cons; split; [lia|done]|].
      simpl. replace (1 - (1 - b)) with b by lia. apply list_elem_of_here.
    + destruct (IH m w Hu Hw) as [Hbw Hback].
      split; [by apply bits_cons|].
      simpl. apply list_elem_of_further, list_elem_of_fmap. by exists u.
Qed.

Lemma NoDup_flips (m : nat) (u : node) : bits m u → NoDup (flips u).
Proof.
  revert m. induction u as [|b u IH]; intros m Hu; simpl.
  - apply NoDup_nil_2.
  - destruct m as [|m]; [by destruct Hu as [[=] _]|].
    apply bits_cons in Hu as [Hb Hu].
    apply NoDup_cons. split.
    + intros (w & [= ? _] & _)%list_elem_of_fmap. lia.
    + apply NoDup_fmap_2; [by intros ?? [=]|]. by apply (IH m).
Qed.

(** Clearing the bits one after the other leads to the all-zero node. *)
Lemma flips_reach_zero (m : nat) (u : node) :
  bits m u →
  rtc (λ a b, bits m a ∧ b ∈ flips a) u (replicate m 0).
Proof.
  revert m. induction u as [|b u IH]; intros m Hu.
  - destruct Hu as [<- _]. done.
  - destruct m as [|m]; [by destruct Hu as [[=] _]|].
    apply bits_cons in Hu as [Hb Hu]. simpl.
    transitivity (b :: replicate m 0).
    + eapply (rtc_congruence (λ w, b :: w)); [|by apply IH].
      intros x y [Hx Hy]. split; [by apply bits_cons|].
      simpl. apply list_elem_of_further, list_elem_of_fmap. by exists y.
    + destruct (decide (b = 0)) as [->|Hne]; [done|].
      assert (b = 1) as -> by lia.
      apply rtc_once. split.
      * apply bits_cons. split; [lia|].
        split; [by rewrite length_replicate|]. apply Forall_replicate. lia.
      * simpl. apply list_elem_of_here.
Qed.

Lemma is_hypercube_symmetric (m : nat) (G : Graph) (a b : node) :
  is_hypercube m G → b ∈ nbrs G a → a ∈ nbrs G b.
Proof.
  intros (_ & Hn & _ & He) Hb.
  assert (bits m a) as Ha by (by eapply Hn, nbrs_nodes).
  apply He in Hb; [|done].
  destruct (flips_bits m a b Ha Hb) as [Hbb Hab]. by apply He.
Qed.

Lemma cycle_graph_2_nodes : nodes (cycle_graph 2) = [[0]; [1]].
Proof. reflexivity. Qed.

Lemma cycle_graph_2_edges : edges (cycle_graph 2) = [([0], [1])].
Proof. reflexivity. Qed.

Lemma cycle_graph_2_hypercube : is_hypercube 1 (cycle_graph 2).
Proof.
  assert (Hbits : ∀ u, bits 1 u ↔ u = [0] ∨ u = [1]).
  { intros u. split.
    - intros (b & u' & -> & Hb & [Hl _])%bits_inv_S.
      destruct u'; [|done]. destruct b as [|[|b]]; auto. lia.
    - intros [-> | ->]; (split; [done|]); apply Forall_singleton; lia. }
  split_and!.
  - rewrite cycle_graph_2_nodes. by_compute.
  - intros u. rewrite cycle_graph_2_nodes, Hbits. set_solver.
  - intros u. destruct (build_spec ((λ i, [i]) <$> seq 0 2)
        ((λ '(i, j), ([i], [j])) <$> pairwise_cyclic 2)) as (_ & _ & H & _).
    apply H.
  - intros u v [-> | ->]%Hbits.
    + change (nbrs (cycle_graph 2) [0]) with [[1]]. done.
    + change (nbrs (cycle_graph 2) [1]) with [[0]]. done.
Qed.

(** The nodes and the edges [cartesian_product] adds, in its order. *)
Lemma cartesian_product_build (G H : Graph) :
  cartesian_product G H
  = build (u ← nodes G; v ← nodes H; [u ++ v])
      (('(u, v) ← edges G; x ← nodes H; [(u ++ x, v ++ x)])
       ++ (x ← nodes G; '(u, v) ← edges H; [(x ++ u, x ++ v)])).
Proof. unfold cartesian_product. by rewrite <- build_app. Qed.

Lemma product_edges_spec (H : Graph) (p q : node) :
  (p, q) ∈ (('(u, v) ← edges (cycle_graph 2); x ← nodes H; [(u ++ x, v ++ x)])
            ++ (x ← nodes (cycle_graph 2); '(u, v) ← edges H;
                [(x ++ u, x ++ v)]))
  ↔ (∃ x, x ∈ nodes H ∧ p = 0 :: x ∧ q = 1 :: x)
    ∨ (∃ b u v, b < 2 ∧ (u, v) ∈ edges H ∧ p = b :: u ∧ q = b :: v).
Proof.
  rewrite cycle_graph_2_nodes, cycle_graph_2_edges, elem_of_app.
  split; (intros [HA|HB]; [left|right]).
  - simpl in HA. rewrite app_nil_r in HA. set_unfold.
    destruct HA as (x & [= -> ->] & Hx). by exists x.
  - apply list_elem_of_bind in HB
      as (x & (e & He & Hin)%list_elem_of_bind & Hx).
    destruct e as [u v]. set_unfold. destruct He as [[= -> ->]|[]].
    destruct Hx as [->|[->|[]]]; eexists _, u, v; (split_and!; [|done..]); lia.
  - destruct HA as (x & Hx & -> & ->). simpl. rewrite app_nil_r.
    set_unfold. by exists x.
  - destruct HB as (b & u & v & Hb & He & -> & ->).
    apply list_elem_of_bind. exists [b]. split.
    + apply list_elem_of_bind. exists (u, v). split; [|done]. set_solver.
    + destruct b as [|[|b]];
          [apply list_elem_of_here
          |apply list_elem_of_further, list_elem_of_here|lia].
Qed.

Lemma cartesian_product_hypercube (m : nat) (H : Graph) :
  is_hypercube m H →
  is_hypercube (S m) (cartesian_product (cycle_graph 2) H).
Proof.
  intros HH. pose proof HH as (Hnd & Hn & Hndn & He).
  assert (Hsym : ∀ a b, b ∈ nbrs H a → a ∈ nbrs H b)
    by (intros a b; by apply is_hypercube_symmetric with m).
  rewrite cartesian_product_build.
  match goal with |- is_hypercube _ (build ?ns ?es) =>
    destruct (build_spec ns es) as (B1 & B2 & B3 & B4) end.
  assert (Hedge : ∀ u v, (u, v) ∈ edges H → bits m u ∧ bits m v).
  { intros u v [? ?]%edges_endpoints; [|done..]. by rewrite <- !Hn. }
  split_and!; [done| |done|].
  - intros x. rewrite B2, bits_inv_S. split.
    + intros [Hx|[Hx|Hx]].
      * rewrite cycle_graph_2_nodes in Hx. set_unfold.
        destruct Hx as (w & (v & -> & Hv) & [->|[->|[]]]);
          eexists _, v; (split_and!; [done| |by apply Hn]); lia.
      * apply list_elem_of_fmap in Hx as ([p q] & -> & Hx). simpl.
        apply product_edges_spec in Hx
          as [(w & Hw & -> & ->)|(b & u & v & Hb & Huv & -> & ->)].
        -- exists 0, w. split_and!; [done|lia|by apply Hn].
        -- exists b, u. split_and!; [done..|by apply (Hedge u v)].
      * apply list_elem_of_fmap in Hx as ([p q] & -> & Hx). simpl.
        apply product_edges_spec in Hx
          as [(w & Hw & -> & ->)|(b & u & v & Hb & Huv & -> & ->)].
        -- exists 1, w. split_and!; [done|lia|by apply Hn].
        -- exists b, v. split_and!; [done..|by apply (Hedge u v)].
    + intros (b & u & -> & Hb & Hu). left.
      rewrite cycle_graph_2_nodes. apply list_elem_of_bind. exists [b]. split.
      * apply list_elem_of_bind. exists u. split; [apply list_elem_of_here|by apply Hn].
      * destruct b as [|[|b]];
          [apply list_elem_of_here
          |apply list_elem_of_further, list_elem_of_here|lia].
  - intros x w (b & u & -> & Hb & Hu)%bits_inv_S.
    rewrite B4, !product_edges_spec. simpl.
    rewrite elem_of_cons, list_elem_of_fmap. split.
    + intros [[H1|H1]|[H1|H1]].
      * destruct H1 as (z & Hz & [= -> ->] & ->). by left.
      * destruct H1 as (b' & u' & v' & _ & Huv & [= -> ->] & ->).
        right. exists v'. split; [done|]. apply He; [done|].
        apply edges_spec; auto.
      * destruct H1 as (z & Hz & -> & [= -> ->]). by left.
      * destruct H1 as (b' & u' & v' & _ & Huv & -> & [= -> ->]).
        right. exists u'. split; [done|]. apply He; [done|].
        apply edges_spec; auto.
    + intros [->|(v & -> & Hv)].
      * destruct b as [|[|b]]; [| |lia].
        -- left; left. exists u. split; [by apply Hn|done].
        -- right; left. exists u. split; [by apply Hn|done].
      * apply He in Hv; [|done].
        apply edges_spec in Hv as [Hv|Hv]; [| |done..].
        -- left; right. by exists b, u, v.
        -- right; right. by exists b, v, u.
Qed.

Lemma grid_product_hypercube (k m : nat) (G : Graph) :
  is_hypercube m G → is_hypercube (k + m) (grid_product k G).
Proof.
  revert m G. induction k as [|k IH]; intros m G HG; simpl; [done|].
  replace (S (k + m)) with (k + S m) by lia.
  by apply IH, cartesian_product_hypercube.
Qed.

Lemma hypercube_graph_hypercube (n : nat) :
  0 < n → is_hypercube n (hypercube_graph n).
Proof.
  destruct n as [|k]; [lia|]. intros _. simpl.
  assert (is_hypercube (S k) (grid_product k (cycle_graph 2))) as HG.
  { replace (S k) with (k + 1) by lia.
    apply grid_product_hypercube, cycle_graph_2_hypercube. }
  pose proof HG as (Hnd & Hn & Hndn & He).
  destruct (relabel_nodes_spec (grid_product k (cycle_graph 2)))
    as (R1 & R2 & R3 & R4);
    [done|intros a b; by apply (is_hypercube_symmetric (S k))|].
  split_and!; [done| |done|].
  - intros u. by rewrite R2.
  - intros u v Hu. rewrite R4. by apply He.
Qed.

Lemma hypercube_graph_degree (n : nat) (u : node) :
  0 < n → u ∈ nodes (hypercube_graph n) → degree (hypercube_graph n) u = n.
Proof.
  intros Hn Hu.
  destruct (hypercube_graph_hypercube n Hn) as (_ & Hnodes & Hnd & He).
  apply Hnodes in Hu.
  rewrite degree_nbrs.
  assert (nbrs (hypercube_graph n) u ≡ₚ flips u) as ->.
  { apply NoDup_Permutation; [done|by apply (NoDup_flips n)|].
    intros v. by apply He. }
  rewrite length_flips. by destruct Hu.
Qed.

Lemma hypercube_graph_connected (n : nat) : connected (hypercube_graph n).
Proof.
  destruct (decide (n = 0)) as [->|Hn].
  { intros u v Hu. by apply elem_of_nil in Hu. }
  pose proof (hypercube_graph_hypercube n ltac:(lia)) as HG.
  pose proof HG as (_ & Hnodes & _ & He).
  apply (connected_hub _ (replicate n 0)).
  { intros a b. by apply is_hypercube_symmetric with n. }
  intros u Hu%Hnodes.
  eapply rtc_subrel; [|by apply flips_reach_zero].
  intros a b [Ha Hb]. by apply He.
Qed.

(** ** The router *)

Section router.
Context (G : Graph).

Lemma foldl_min_scan {A} (key : A → nat) (xs pre post : list A) (best : A) :
  (∀ y, y ∈ pre → key best < key y) →
  (∀ y, y ∈ post → key best ≤ key y) →
  ∃ l1 l2,
    pre ++ best :: post ++ xs
      = l1 ++ foldl (λ b y, if decide (key y < key b) then y else b) best xs :: l2
    ∧ (∀ y, y ∈ l1 →
         key (foldl (λ b y, if decide (key y < key b) then y else b) best xs) < key y)
    ∧ (∀ y, y ∈ l2 →
         key (foldl (λ b y, if decide (key y < key b) then y else b) best xs) ≤ key y).
Proof.
  revert pre post best.
  induction xs as [|x xs IH]; intros pre post best Hpre Hpost; simpl.
  - exists pre, post. by rewrite app_nil_r.
  - destruct (decide (key x < key best)) as [Hlt|Hge].
    + destruct (IH (pre ++ best :: post) [] x) as (l1 & l2 & Heq & H1 & H2).
      * intros y [Hy|Hy]%elem_of_app; [specialize (Hpre y Hy); lia|].
        apply elem_of_cons in Hy as [->|Hy]; [done|].
        specialize (Hpost y Hy); lia.
      * by intros y ?%elem_of_nil.
      * exists l1, l2. split; [|done].
        rewrite <- Heq. by rewrite <- !app_assoc.
    + destruct (IH pre (post ++ [x]) best) as (l1 & l2 & Heq & H1 & H2).
      * done.
      * intros y [Hy|Hy]%elem_of_app; [by apply Hpost|].
        apply list_elem_of_singleton in Hy as ->. lia.
      * exists l1, l2. split; [|done].
        rewrite <- Heq. by rewrite <- !app_assoc.
Qed.

(** [min] returns the first element with the least key. *)
Lemma py_min_first {A} (key : A → nat) (x : A) (xs : list A) :
  ∃ h l1 l2,
    py_min key (x :: xs) = Ok h
    ∧ x :: xs = l1 ++ h :: l2
    ∧ (∀ y, y ∈ l1 → key h < key y)
    ∧ (∀ y, y ∈ l2 → key h ≤ key y).
Proof.
  destruct (foldl_min_scan key xs [] [] x) as (l1 & l2 & Heq & H1 & H2);
    [by intros y ?%elem_of_nil..|].
  eexists _, l1, l2. split; [reflexivity|]. done.
Qed.

(** A packet never counts itself on a node that is not its own. *)
Lemma congestion_delete (pl : list Packet) (i : nat) (p : Packet) (n : node) :
  pl !! i = Some p → current p ≠ n →
  congestion pl n = congestion (delete i pl) n.
Proof.
  intros Hi Hne. unfold congestion.
  rewrite <- (take_drop_middle pl i p Hi) at 1.
  rewrite delete_take_drop, !filter_app, filter_cons.
  destruct (decide _) as [[? _]|_]; [done|]. done.
Qed.

Lemma candidates_spec (p : Packet) (nbs : list node) :
  candidates G p = Ok nbs ↔
  ∃ nb, neighbors G (current p) = Ok nb
        ∧ nbs = filter (λ n, n ∉ path p) nb.
Proof.
  unfold candidates. destruct (neighbors G (current p)) as [nb|e]; simpl.
  - split; [intros [= <-]; eauto|]. by intros (nb' & [= <-] & ->).
  - split; [done|]. by intros (? & ? & _).
Qed.

Lemma candidates_not_visited (p : Packet) (nbs : list node) (n : node) :
  candidates G p = Ok nbs → n ∈ nbs → n ∉ path p.
Proof.
  intros (nb & _ & ->)%candidates_spec Hn.
  by apply list_elem_of_filter in Hn as [? _].
Qed.

Lemma adaptive_next_hop_empty (pl : list Packet) (p : Packet) :
  candidates G p = Ok [] →
  adaptive_next_hop G pl p = Ok (current p, incr_blocked p).
Proof. intros Hc. unfold adaptive_next_hop. by rewrite Hc. Qed.

Lemma adaptive_next_hop_raise (pl : list Packet) (p : Packet) (e : Exn) :
  candidates G p = Raise e → adaptive_next_hop G pl p = Raise e.
Proof. intros Hc. unfold adaptive_next_hop. by rewrite Hc. Qed.

Lemma adaptive_next_hop_nonempty
    (pl : list Packet) (p : Packet) (x : node) (xs : list node) :
  candidates G p = Ok (x :: xs) →
  ∃ hop l1 l2,
    adaptive_next_hop G pl p = Ok (hop, p)
    ∧ x :: xs = l1 ++ hop :: l2
    ∧ (∀ y, y ∈ l1 → congestion pl hop < congestion pl y)
    ∧ (∀ y, y ∈ l2 → congestion pl hop ≤ congestion pl y).
Proof.
  intros Hc.
  destruct (py_min_first (congestion pl) x xs)
    as (hop & l1 & l2 & Hmin & Heq & H1 & H2).
  exists hop, l1, l2. split_and!; try done.
  unfold adaptive_next_hop. rewrite Hc. simpl.
  change (py_min (congestion pl) (x :: xs) ≫= (λ hop, Ok (hop, p))
          = Ok (hop, p)).
  by rewrite Hmin.
Qed.

(** The code's count on a node the packet at position [i] does not stand
    on is the count of the other packets. *)
Lemma count_others_congestion (pl : list Packet) (i j : nat) (y : node) :
  (∀ p, j ≤ i → pl !! (i - j) = Some p → current p ≠ y) →
  count_others i y j pl = congestion pl y.
Proof.
  revert j. induction pl as [|q pl IH]; intros j Hself; [done|].
  unfold congestion. rewrite filter_cons. fold (congestion pl y).
  simpl. rewrite (IH (S j)).
  2:{ intros p Hj Hp. apply (Hself p); [lia|].
      replace (i - j) with (S (i - S j)) by lia. done. }
  destruct (decide (j = i)) as [->|Hne].
  - assert (current q ≠ y) as Hq.
    { apply Hself; [lia|]. by rewrite Nat.sub_diag. }
    rewrite decide_False by (intros (? & _); done).
    rewrite decide_False by (intros (? & _); done). done.
  - destruct (decide (current q = y ∧ completed q = false)) as [[? ?]|Hno].
    + by rewrite decide_True.
    + rewrite decide_False; [done|]. intros (_ & ? & ?). by apply Hno.
Qed.

Lemma others_on_congestion (pl : list Packet) (i : nat) (p : Packet)
    (y : node) :
  pl !! i = Some p → current p ≠ y → others_on pl i y = congestion pl y.
Proof.
  intros Hi Hne. apply count_others_congestion.
  intros p' _. rewrite Nat.sub_0_r, Hi. by intros [= <-].
Qed.

(** C2: take the packet at position [i], with its current node in its
    path, and the neighbours of its current node that are not in its path.
    When there is one, the router leaves the packet as it is and returns
    the first of them, in the order [G.neighbors] lists them, that has the
    least number of other packets (every position of [packet_list] but [i])
    that are not completed and stand on it: the ones before the hop have
    strictly more, the ones after it at least as many. *)
Theorem router_first_least_congested
    (pl : list Packet) (i : nat) (p : Packet) (nb : list node) :
  pl !! i = Some p →
  current p ∈ path p →
  neighbors G (current p) = Ok nb →
  filter (λ n, n ∉ path p) nb ≠ [] →
  ∃ hop l1 l2,
    adaptive_next_hop G pl p = Ok (hop, p)
    ∧ filter (λ n, n ∉ path p) nb = l1 ++ hop :: l2
    ∧ (∀ y, y ∈ l1 → others_on pl i hop < others_on pl i y)
    ∧ (∀ y, y ∈ l2 → others_on pl i hop ≤ others_on pl i y).
Proof.
  intros Hi Hcur Hnb Hne.
  assert (candidates G p = Ok (filter (λ n, n ∉ path p) nb)) as Hc.
  { apply candidates_spec. by exists nb. }
  destruct (filter (λ n, n ∉ path p) nb) as [|x xs] eqn:Hf; [done|].
  destruct (adaptive_next_hop_nonempty pl p x xs Hc)
    as (hop & l1 & l2 & Hmin & Heq & H1 & H2).
  assert (Hother : ∀ y, y ∈ x :: xs → others_on pl i y = congestion pl y).
  { intros y Hy. apply (others_on_congestion _ _ p); [done|].
    intros <-. by apply (candidates_not_visited _ _ _ Hc Hy). }
  exists hop, l1, l2. split_and!.
  - done.
  - done.
  - intros y Hy. rewrite !Hother; [by apply H1|..];
      rewrite Heq; set_solver.
  - intros y Hy. rewrite !Hother; [by apply H2|..];
      rewrite Heq; set_solver.
Qed.

(** C4: one evaluation of the router on a packet whose current node is in
    its path, with the neighbours of its current node that are not in its
    path.  The hop is the current node exactly when there is none; then
    [blocked_steps] has grown by one.  When there is one, the hop is one of
    them, it differs from the current node, and [blocked_steps] is
    unchanged.  No other field changes. *)
Theorem router_blocked_iff_no_progress
    (pl : list Packet) (p : Packet) (nb : list node) :
  current p ∈ path p →
  neighbors G (current p) = Ok nb →
  ∃ hop p',
    adaptive_next_hop G pl p = Ok (hop, p')
    ∧ (filter (λ n, n ∉ path p) nb = [] ↔ hop = current p)
    ∧ (hop = current p ↔ blocked_steps p' = blocked_steps p + 1)
    ∧ (hop ≠ current p ↔ blocked_steps p' = blocked_steps p)
    ∧ (filter (λ n, n ∉ path p) nb ≠ [] →
         hop ∈ filter (λ n, n ∉ path p) nb ∧ hop ∈ nb ∧ hop ∉ path p)
    ∧ src p' = src p ∧ dst p' = dst p ∧ current p' = current p
    ∧ path p' = path p ∧ completed p' = completed p.
Proof.
  intros Hcur Hnb.
  assert (candidates G p = Ok (filter (λ n, n ∉ path p) nb)) as Hc.
  { apply candidates_spec. by exists nb. }
  destruct (filter (λ n, n ∉ path p) nb) as [|x xs] eqn:Hf.
  - exists (current p), (incr_blocked p). split_and!; try done.
    + by apply adaptive_next_hop_empty.
    + simpl. split; [done|lia].
  - destruct (adaptive_next_hop_nonempty pl p x xs Hc)
      as (hop & l1 & l2 & Hmin & Heq & _ & _).
    assert (Hin : hop ∈ x :: xs) by (rewrite Heq; set_solver).
    assert (Hne : hop ≠ current p).
    { intros ->. by apply (candidates_not_visited _ _ _ Hc Hin). }
    exists hop, p. split_and!; try done.
    + split; [done|lia].
    + intros _. pose proof Hin as Hin'. rewrite <- Hf in Hin'.
      apply list_elem_of_filter in Hin' as [? ?]. done.
Qed.
End router.

(** ** One iteration and the whole loop, packet by packet *)

Section simulation.
Context (G : Graph).

Lemma move_packet_update (pl pl' : list Packet) (i : nat) (p : Packet) :
  pl !! i = Some p →
  move_packet G pl i = Ok pl' →
  ∃ p', pl' = <[i:=p']> pl ∧ packet_update G p p'.
Proof.
  intros Hi. unfold move_packet. rewrite Hi.
  destruct (completed p) eqn:Hcomp.
  { intros [= <-]. exists p. split; [by rewrite list_insert_id|].
    by apply update_skip. }
  destruct (decide (current p = dst p)) as [Hd|Hd].
  { intros [= <-]. eexists. split; [done|]. by apply update_complete. }
  destruct (candidates G p) as [[|x xs]|e] eqn:Hc.
  - rewrite (adaptive_next_hop_empty G pl p Hc). intros [= <-].
    eexists. split; [done|]. by apply update_blocked.
  - destruct (adaptive_next_hop_nonempty G pl p x xs Hc)
      as (hop & l1 & l2 & -> & Heq & _ & _).
    intros [= <-]. eexists. split; [done|].
    apply (update_move _ _ (x :: xs)); try done.
    rewrite Heq. set_solver.
  - by rewrite (adaptive_next_hop_raise G pl p e Hc).
Qed.

Lemma move_packet_out_of_range (pl : list Packet) (i : nat) :
  pl !! i = None → move_packet G pl i = Ok pl.
Proof. intros Hi. unfold move_packet. by rewrite Hi. Qed.

(** The loop over the positions [a, a+1, ...]: positions before [a] are
    done, the others still hold the packets of the start of the
    iteration. *)
Lemma move_packets_from_update (k a : nat) (pl0 pl pl' : list Packet) :
  a + k = length pl0 →
  length pl = length pl0 →
  (∀ j, a ≤ j → pl !! j = pl0 !! j) →
  (∀ j p0, j < a → pl0 !! j = Some p0 →
     ∃ p1, pl !! j = Some p1 ∧ packet_update G p0 p1) →
  move_packets_from G (seq a k) pl = Ok pl' →
  Forall2 (packet_update G) pl0 pl'.
Proof.
  revert a pl.
  induction k as [|k IH]; intros a pl Hlen Hl Hrest Hdone; simpl.
  - intros [= <-]. apply Forall2_same_length_lookup. split; [done|].
    intros j p0 p1 H0 H1.
    assert (j < a) as Hj by (apply lookup_lt_Some in H0; lia).
    destruct (Hdone j p0 Hj H0) as (p1' & H1' & Hup). congruence.
  - destruct (pl0 !! a) as [p|] eqn:Ha;
      [|apply lookup_ge_None in Ha; lia].
    assert (pl !! a = Some p) as Hpa by (rewrite Hrest; [done|lia]).
    destruct (move_packet G pl a) as [pl1|e] eqn:Hm; [|done]. simpl.
    destruct (move_packet_update _ _ _ _ Hpa Hm) as (p' & -> & Hup).
    apply IH.
    + lia.
    + by rewrite length_insert.
    + intros j Hj. rewrite list_lookup_insert_ne; [|lia].
      apply Hrest. lia.
    + intros j p0 Hj H0.
      destruct (decide (j = a)) as [->|Hne].
      * exists p'. rewrite list_lookup_insert_eq; [|lia].
        split; [done|]. congruence.
      * rewrite list_lookup_insert_ne; [|done].
        apply Hdone; [lia|done].
Qed.

(** Every packet goes through the loop body exactly once per iteration. *)
Lemma move_packets_update (pl pl' : list Packet) :
  move_packets G pl = Ok pl' → Forall2 (packet_update G) pl pl'.
Proof.
  apply (move_packets_from_update (length pl) 0 pl pl); try done.
  intros j p0 Hj. lia.
Qed.

Lemma sim_step_update (s s' : Sim) :
  sim_step G s = Ok s' →
  Forall2 (packet_update G) (packet_list s) (packet_list s')
  ∧ frames s' = frames s ++ [node_colors G (packet_list s)].
Proof.
  unfold sim_step.
  destruct (move_packets G (packet_list s)) as [pl|e] eqn:Hm; [|done].
  intros [= <-]. split; [by apply move_packets_update|done].
Qed.

Lemma run_steps_update (k : nat) (s s' : Sim) :
  run_steps G k s = Ok s' →
  Forall2 (nsteps (packet_update G) k) (packet_list s) (packet_list s')
  ∧ length (frames s') = length (frames s) + k.
Proof.
  revert s. induction k as [|k IH]; intros s; simpl.
  - intros [= <-]. split; [|lia].
    apply Forall_Forall2_diag, Forall_forall. intros. apply nsteps_O.
  - destruct (sim_step G s) as [s1|e] eqn:Hs; [|done]. simpl.
    intros Hrun. apply sim_step_update in Hs as [Hs Hf].
    apply IH in Hrun as [Hrun Hlen]. split.
    + eapply Forall2_trans; [|exact Hs|exact Hrun].
      intros p p1 p2 H1 Hk. by eapply nsteps_l.
    + rewrite Hlen, Hf, length_app. simpl. lia.
Qed.

(** *** What one pass through the loop body keeps *)

Lemma packet_update_completed (p p' : Packet) :
  completed p = true → packet_update G p p' → p' = p.
Proof. intros Hc Hup. destruct Hup; congruence. Qed.

Lemma packet_update_blocked_le (p p' : Packet) :
  packet_update G p p' → blocked_steps p ≤ blocked_steps p'.
Proof. intros Hup. destruct Hup; simpl; lia. Qed.

Lemma candidates_set_completed (p : Packet) :
  candidates G (set_completed p) = candidates G p.
Proof. done. Qed.

(** A longer path at the same node leaves no candidate either. *)
Lemma candidates_empty_mono (p p' : Packet) :
  current p' = current p → path p ⊆ path p' →
  candidates G p = Ok [] → candidates G p' = Ok [].
Proof.
  intros Hcur Hsub (nb & Hnb & Hnil)%candidates_spec.
  apply candidates_spec. exists nb. rewrite Hcur. split; [done|].
  symmetry. apply filter_none.
  intros n Hn Hnot.
  assert (n ∈ filter (λ n, n ∉ path p) nb) as Hin.
  { apply list_elem_of_filter. split; [|done].
    intros Hp. by apply Hnot, Hsub. }
  rewrite <- Hnil in Hin. by apply elem_of_nil in Hin.
Qed.

Lemma packet_update_stuck (p p' : Packet) :
  candidates G p = Ok [] → packet_update G p p' →
  candidates G p' = Ok []
  ∧ current p' = current p
  ∧ blocked_steps p' = blocked_steps p + (if is_routed p then 1 else 0)
  ∧ is_routed p' = is_routed p.
Proof.
  intros Hnil Hup. unfold is_routed.
  destruct Hup as [Hc|Hc Hd|Hc Hd _|nbs hop Hc Hd Hnbs Hhop]; simpl.
  - rewrite Hc. simpl. split_and!; [done..|lia|done].
  - rewrite Hc. simpl.
    rewrite bool_decide_eq_false_2 by (intros ?; done).
    split_and!; [done..|lia|done].
  - rewrite Hc. simpl. rewrite bool_decide_eq_true_2 by done.
    split_and!; try done.
    apply (candidates_empty_mono p); [done| |done].
    simpl. set_solver.
  - rewrite Hnil in Hnbs. injection Hnbs as <-.
    by apply elem_of_nil in Hhop.
Qed.

Lemma path_shape_new (s d : node) : path_shape G (new_packet s d).
Proof.
  exists [s], 0. simpl. split_and!; [done| |done|lia].
  apply NoDup_singleton.
Qed.

Lemma packet_update_shape (p p' : Packet) :
  path_shape G p → packet_update G p p' → path_shape G p'.
Proof.
  intros (d & r & Hpath & Hnd & Hlast & Hr) Hup.
  destruct Hup as [Hc|Hc Hd|Hc Hd Hnil|nbs hop Hc Hd Hnbs Hhop].
  - by exists d, r.
  - by exists d, r.
  - exists d, (S r). split_and!; try done.
    + change (path p ++ [current p] = d ++ replicate (S r) (current p)).
      by rewrite Hpath, replicate_S_end, app_assoc.
    + intros _. apply (candidates_empty_mono p); [done| |done].
      simpl. set_solver.
  - assert (r = 0) as ->.
    { destruct r; [done|]. rewrite Hr in Hnbs by lia.
      injection Hnbs as <-. by apply elem_of_nil in Hhop. }
    simpl in Hpath. rewrite app_nil_r in Hpath.
    exists (d ++ [hop]), 0. simpl. split_and!.
    + by rewrite Hpath, app_nil_r.
    + apply NoDup_app. split_and!; [done| |apply NoDup_singleton].
      intros x Hx ->%list_elem_of_singleton.
      apply (candidates_not_visited G p nbs hop); [done..|].
      by rewrite Hpath.
    + apply last_snoc.
    + lia.
Qed.

Lemma path_shape_last (p : Packet) :
  path_shape G p → last (path p) = Some (current p).
Proof.
  intros (d & r & -> & _ & Hlast & _).
  destruct r as [|r]; [by rewrite app_nil_r|].
  by rewrite replicate_S_end, app_assoc, last_snoc.
Qed.

(** *** The same over any number of iterations *)

Lemma nsteps_update_completed (m : nat) (p p' : Packet) :
  completed p = true → nsteps (packet_update G) m p p' → p' = p.
Proof.
  intros Hc Hn. induction Hn as [|n x y z Hxy _ IH]; [done|].
  apply (packet_update_completed _ _ Hc) in Hxy as ->. by apply IH.
Qed.

Lemma nsteps_update_blocked_le (m : nat) (p p' : Packet) :
  nsteps (packet_update G) m p p' → blocked_steps p ≤ blocked_steps p'.
Proof.
  induction 1 as [|n x y z Hxy _ IH]; [done|].
  apply packet_update_blocked_le in Hxy. lia.
Qed.

Lemma nsteps_update_stuck (m : nat) (p p' : Packet) :
  candidates G p = Ok [] → nsteps (packet_update G) m p p' →
  candidates G p' = Ok []
  ∧ current p' = current p
  ∧ blocked_steps p' = blocked_steps p + (if is_routed p then m else 0)
  ∧ is_routed p' = is_routed p.
Proof.
  intros Hnil Hn. induction Hn as [|n x y z Hxy _ IH].
  - split_and!; try done. destruct (is_routed x); lia.
  - destruct (packet_update_stuck _ _ Hnil Hxy) as (Hy & Hcur & Hb & Hr).
    destruct (IH Hy) as (Hz & Hcur' & Hb' & Hr').
    split_and!; [done|congruence| |congruence].
    rewrite Hb', Hb, Hr. destruct (is_routed x); lia.
Qed.

Lemma nsteps_update_shape (m : nat) (p p' : Packet) :
  path_shape G p → nsteps (packet_update G) m p p' → path_shape G p'.
Proof.
  intros Hs Hn. induction Hn as [|n x y z Hxy _ IH]; [done|].
  by apply IH, (packet_update_shape x).
Qed.

Lemma create_packets_from_new (rnd : nat → nat * nat) (rounds : list nat)
    (pl pl' : list Packet) :
  Forall (λ p, ∃ s d, p = new_packet s d) pl →
  create_packets_from G rnd rounds pl = Ok pl' →
  Forall (λ p, ∃ s d, p = new_packet s d) pl'.
Proof.
  revert pl. induction rounds as [|t rounds IH]; intros pl Hpl; simpl.
  - by intros [= <-].
  - destruct (random_sample2 (nodes G) (rnd t)) as [[s d]|e]; [|done].
    simpl. apply IH. apply Forall_app. split; [done|].
    apply Forall_singleton. eauto.
Qed.

(** C5: from any state of the run, after any number of further
    iterations, the packet at a position has a [blocked_steps] at least as
    large as before, and if it was completed its current node, its path
    and its completed flag are what they were. *)
Theorem completed_frozen_blocked_monotone
    (m : nat) (s1 s2 : Sim) (i : nat) (p1 : Packet) :
  run_steps G m s1 = Ok s2 →
  packet_list s1 !! i = Some p1 →
  ∃ p2,
    packet_list s2 !! i = Some p2
    ∧ blocked_steps p1 ≤ blocked_steps p2
    ∧ (completed p1 = true →
         current p2 = current p1 ∧ path p2 = path p1
         ∧ completed p2 = true).
Proof.
  intros [Hrun _]%run_steps_update Hi.
  destruct (Forall2_lookup_l _ _ _ _ _ Hrun Hi) as (p2 & H2 & Hn).
  exists p2. split_and!; [done|by eapply nsteps_update_blocked_le|].
  intros Hc. by rewrite (nsteps_update_completed _ _ _ Hc Hn).
Qed.

(** C8: a packet that has no candidate at some iteration boundary has none
    at any later boundary, stands on the same node, and in each later
    iteration its [blocked_steps] grows by one if the packet is routed in
    that iteration and stays as it is otherwise. *)
Theorem blocked_packet_never_recovers
    (m : nat) (s1 s2 s3 : Sim) (i : nat) (p1 : Packet) :
  packet_list s1 !! i = Some p1 →
  candidates G p1 = Ok [] →
  run_steps G m s1 = Ok s2 →
  sim_step G s2 = Ok s3 →
  ∃ p2 p3,
    packet_list s2 !! i = Some p2
    ∧ packet_list s3 !! i = Some p3
    ∧ candidates G p2 = Ok [] ∧ candidates G p3 = Ok []
    ∧ current p2 = current p1 ∧ current p3 = current p1
    ∧ is_routed p2 = is_routed p1
    ∧ blocked_steps p3
      = blocked_steps p2 + (if is_routed p2 then 1 else 0).
Proof.
  intros Hi Hnil [Hrun _]%run_steps_update [Hstep _]%sim_step_update.
  destruct (Forall2_lookup_l _ _ _ _ _ Hrun Hi) as (p2 & H2 & Hn).
  destruct (Forall2_lookup_l _ _ _ _ _ Hstep H2) as (p3 & H3 & Hup).
  destruct (nsteps_update_stuck _ _ _ Hnil Hn) as (Hnil2 & Hc2 & _ & Hr2).
  destruct (packet_update_stuck _ _ Hnil2 Hup) as (Hnil3 & Hc3 & Hb3 & _).
  exists p2, p3. split_and!; try done. congruence.
Qed.

(** C10: at every iteration boundary of a run that starts from freshly
    created packets, a packet's current node is the last element of its
    path, and the path is a list of pairwise distinct nodes ending at the
    current node, followed by [r] more copies of the current node; there
    are such copies only when the packet has no candidate left. *)
Theorem path_distinct_then_repeats
    (packets : nat) (rnd : nat → nat * nat) (pl0 : list Packet)
    (t : nat) (s : Sim) (p : Packet) :
  create_packets G packets rnd = Ok pl0 →
  run_steps G t {| packet_list := pl0; frames := [] |} = Ok s →
  p ∈ packet_list s →
  last (path p) = Some (current p)
  ∧ ∃ (d : list node) (r : nat),
      path p = d ++ replicate r (current p)
      ∧ NoDup d
      ∧ last d = Some (current p)
      ∧ (0 < r → candidates G p = Ok []).
Proof.
  intros Hnew [Hrun _]%run_steps_update Hp. simpl in Hrun.
  apply create_packets_from_new in Hnew; [|by apply Forall_nil].
  apply list_elem_of_lookup in Hp as [i Hi].
  destruct (Forall2_lookup_r _ _ _ _ _ Hrun Hi) as (p0 & H0 & Hn).
  assert (path_shape G p) as Hshape.
  { apply (nsteps_update_shape t p0); [|done].
    rewrite Forall_forall in Hnew.
    destruct (Hnew p0) as (s0 & d0 & ->);
      [by eapply list_elem_of_lookup_2|].
    apply path_shape_new. }
  split; [by apply path_shape_last|exact Hshape].
Qed.
End simulation.

(** ** No exception on a closed graph *)

Section totality.
Context (G : Graph) (Hclosed : closed G).

Lemma candidates_total (p : Packet) :
  in_graph G p →
  ∃ nbs, candidates G p = Ok nbs ∧ ∀ n, n ∈ nbs → n ∈ nodes G.
Proof using Hclosed.
  intros Hp. exists (filter (λ n, n ∉ path p) (nbrs G (current p))). split.
  - unfold candidates. by rewrite (neighbors_nbrs G _ Hp).
  - intros n [_ Hn]%list_elem_of_filter. by apply (Hclosed (current p)).
Qed.

Lemma adaptive_next_hop_total (pl : list Packet) (p : Packet) :
  in_graph G p →
  ∃ hop p', adaptive_next_hop G pl p = Ok (hop, p') ∧ hop ∈ nodes G.
Proof using Hclosed.
  intros Hp. destruct (candidates_total p Hp) as ([|x xs] & Hc & Hin).
  - exists (current p), (incr_blocked p).
    split; [by apply adaptive_next_hop_empty|done].
  - destruct (adaptive_next_hop_nonempty G pl p x xs Hc)
      as (hop & l1 & l2 & Hhop & Heq & _).
    exists hop, p. split; [done|]. apply Hin. rewrite Heq. set_solver.
Qed.

Lemma packet_update_in_graph (p p' : Packet) :
  in_graph G p → packet_update G p p' → in_graph G p'.
Proof using Hclosed.
  intros Hp Hup. unfold in_graph in *.
  destruct Hup as [?|? ?|? ? ?|nbs hop ? ? Hc Hhop]; simpl; try done.
  destruct (candidates_total p Hp) as (nbs' & Hc' & Hin).
  apply Hin. congruence.
Qed.

Lemma move_packet_total (pl : list Packet) (i : nat) :
  Forall (in_graph G) pl →
  ∃ pl', move_packet G pl i = Ok pl' ∧ Forall (in_graph G) pl'.
Proof using Hclosed.
  intros Hpl. destruct (pl !! i) as [p|] eqn:Hi.
  - assert (in_graph G p) as Hp.
    { rewrite Forall_forall in Hpl. by eapply Hpl, list_elem_of_lookup_2. }
    assert (∃ pl', move_packet G pl i = Ok pl') as [pl' Hm].
    { unfold move_packet. rewrite Hi.
      destruct (completed p); [eauto|].
      destruct (decide (current p = dst p)); [eauto|].
      destruct (adaptive_next_hop_total pl p Hp) as (hop & p' & -> & _).
      simpl. eauto. }
    exists pl'. split; [done|].
    destruct (move_packet_update G pl pl' i p Hi Hm) as (p' & -> & Hup).
    apply Forall_insert; [done|]. by apply (packet_update_in_graph p).
  - exists pl. split; [by apply move_packet_out_of_range|done].
Qed.

Lemma move_packets_from_total (idx : list nat) (pl : list Packet) :
  Forall (in_graph G) pl →
  ∃ pl', move_packets_from G idx pl = Ok pl' ∧ Forall (in_graph G) pl'.
Proof using Hclosed.
  revert pl. induction idx as [|i idx IH]; intros pl Hpl; simpl; [eauto|].
  destruct (move_packet_total pl i Hpl) as (pl1 & -> & Hpl1). simpl.
  by apply IH.
Qed.

Lemma sim_step_total (s : Sim) :
  Forall (in_graph G) (packet_list s) →
  ∃ s', sim_step G s = Ok s' ∧ Forall (in_graph G) (packet_list s').
Proof using Hclosed.
  intros Hs. unfold sim_step, move_packets.
  destruct (move_packets_from_total (seq 0 (length (packet_list s)))
              (packet_list s) Hs) as (pl & -> & Hpl).
  simpl. eauto.
Qed.

Lemma run_steps_total (k : nat) (s : Sim) :
  Forall (in_graph G) (packet_list s) →
  ∃ s', run_steps G k s = Ok s'.
Proof using Hclosed.
  revert s. induction k as [|k IH]; intros s Hs; simpl; [eauto|].
  destruct (sim_step_total s Hs) as (s1 & -> & Hs1). simpl. by apply IH.
Qed.

Lemma random_sample2_total (population : list node) (draw : nat * nat) :
  2 ≤ length population →
  ∃ s d, random_sample2 population draw = Ok (s, d)
         ∧ s ∈ population ∧ d ∈ population.
Proof.
  intros Hlen. unfold random_sample2.
  rewrite decide_False by lia.
  set (len := length population) in *.
  set (i := draw.1 `mod` len).
  set (j0 := draw.2 `mod` (len - 1)).
  assert (i < len) as Hi by (apply Nat.mod_upper_bound; lia).
  assert (j0 < len - 1) as Hj0 by (apply Nat.mod_upper_bound; lia).
  destruct (lookup_lt_is_Some_2 population i Hi) as [s Hs].
  destruct (lookup_lt_is_Some_2 population
              (if decide (j0 < i) then j0 else S j0)) as [d Hd].
  { case_decide; lia. }
  rewrite Hs, Hd. exists s, d.
  split_and!; [done|by eapply list_elem_of_lookup_2..].
Qed.

Lemma create_packets_from_total (rnd : nat → nat * nat)
    (rounds : list nat) (pl : list Packet) :
  2 ≤ length (nodes G) →
  Forall (in_graph G) pl →
  ∃ pl', create_packets_from G rnd rounds pl = Ok pl'
         ∧ Forall (in_graph G) pl'
         ∧ length pl' = length pl + length rounds.
Proof.
  intros Hlen. revert pl.
  induction rounds as [|t rounds IH]; intros pl Hpl; simpl.
  - exists pl. split_and!; [done..|lia].
  - destruct (random_sample2_total (nodes G) (rnd t) Hlen)
      as (s & d & -> & Hs & Hd). simpl.
    destruct (IH (pl ++ [new_packet s d])) as (pl' & Hpl' & Hin & Hl).
    { apply Forall_app. split; [done|]. by apply Forall_singleton. }
    exists pl'. split_and!; [done..|].
    rewrite Hl, length_app. simpl. lia.
Qed.
End totality.

(** ** The topologies of the script *)

Lemma generate_topology_closed (topology : Topology) (n : nat) :
  closed (generate_topology topology n).
Proof.
  destruct topology; simpl.
  - rewrite grid_2d_graph_build. apply build_closed.
  - rewrite grid_2d_graph_build. apply build_closed.
  - destruct n as [|k]; simpl.
    + intros u v Hv. by apply elem_of_nil in Hv.
    + apply build_closed.
Qed.

Lemma length_two {A} (l : list A) (a b : A) :
  a ∈ l → b ∈ l → a ≠ b → 2 ≤ length l.
Proof.
  intros Ha Hb Hne.
  destruct l as [|x [|y l]]; simpl; [by apply elem_of_nil in Ha| |lia].
  apply list_elem_of_singleton in Ha, Hb. congruence.
Qed.

Lemma generate_topology_two_nodes (topology : Topology) (n : nat) :
  2 ≤ n → 2 ≤ length (nodes (generate_topology topology n)).
Proof.
  intros Hn. destruct topology; simpl.
  - apply (length_two _ [0; 0] [0; 1]); [..|done];
      apply grid_2d_graph_nodes; eexists _, _; (split_and!; [| |done]); lia.
  - apply (length_two _ [0; 0] [0; 1]); [..|done];
      apply grid_2d_graph_nodes; eexists _, _; (split_and!; [| |done]); lia.
  - destruct (hypercube_graph_hypercube n ltac:(lia)) as (_ & Hnodes & _).
    destruct n as [|m]; [lia|].
    apply (length_two _ (0 :: replicate m 0) (1 :: replicate m 0));
      [..|done]; apply Hnodes, bits_cons;
      (split; [lia|]); (split; [by rewrite length_replicate|]);
      apply Forall_replicate; lia.
Qed.

Lemma simulate_total (topology : Topology) (n packets : nat)
    (rnd : nat → nat * nat) :
  2 ≤ n →
  ∃ pl s,
    create_packets (generate_topology topology n) packets rnd = Ok pl
    ∧ length pl = packets
    ∧ simulate topology n packets rnd = Ok s
    ∧ run_steps (generate_topology topology n) (max_steps n)
        {| packet_list := pl; frames := [] |} = Ok s.
Proof.
  intros Hn.
  pose proof (generate_topology_closed topology n) as Hclosed.
  pose proof (generate_topology_two_nodes topology n Hn) as Hlen.
  destruct (create_packets_from_total (generate_topology topology n)
              rnd (seq 0 packets) [] Hlen) as (pl & Hpl & Hin & Hl);
    [done|].
  destruct (run_steps_total (generate_topology topology n) Hclosed
              (max_steps n) {| packet_list := pl; frames := [] |} Hin)
    as (s & Hs).
  exists pl, s. split_and!; [done| |  |done].
  - rewrite Hl, length_seq. done.
  - unfold simulate, create_packets. rewrite Hpl. done.
Qed.

Lemma length_line_nbrs (n : nat) (periodic : bool) (a : nat) :
  length (line_nbrs n periodic a)
  = (if decide (0 < a) then 1
     else if periodic && bool_decide (2 < n) then 1 else 0)
    + (if decide (S a < n) then 1
       else if periodic && bool_decide (2 < n) then 1 else 0).
Proof.
  unfold line_nbrs. rewrite length_app.
  by repeat case_decide; destruct (periodic && bool_decide (2 < n)).
Qed.

(** ** Arriving in the last iteration needs room

    A packet that stands on its destination without being marked has moved
    in every iteration so far, each time to a node it had not visited. *)

Lemma random_sample2_elem (population : list node) (draw : nat * nat)
    (s d : node) :
  random_sample2 population draw = Ok (s, d) →
  s ∈ population ∧ d ∈ population ∧ (NoDup population → s ≠ d).
Proof.
  unfold random_sample2. case_decide as Hlen; [done|].
  set (i := draw.1 `mod` length population).
  set (j0 := draw.2 `mod` (length population - 1)).
  destruct (population !! i) as [s'|] eqn:Hs; [|done].
  destruct (population !! (if decide (j0 < i) then j0 else S j0))
    as [d'|] eqn:Hd; [|done].
  intros [= -> ->]. split_and!; [by eapply list_elem_of_lookup_2..|].
  intros Hnd ->.
  pose proof (NoDup_lookup _ _ _ _ Hnd Hs Hd) as Hij.
  case_decide; lia.
Qed.

Lemma create_packets_from_progress (G : Graph) (rnd : nat → nat * nat)
    (rounds : list nat) (pl pl' : list Packet) :
  Forall (progress G 0) pl →
  create_packets_from G rnd rounds pl = Ok pl' →
  Forall (progress G 0) pl'.
Proof.
  revert pl. induction rounds as [|t rounds IH]; intros pl Hpl; simpl.
  - by intros [= <-].
  - destruct (random_sample2 (nodes G) (rnd t)) as [[s d]|e] eqn:Hs; [|done].
    simpl. apply IH. apply Forall_app. split; [done|].
    apply Forall_singleton.
    apply random_sample2_elem in Hs as (Hs & _ & _).
    split_and!; [done| |].
    + by intros x ->%list_elem_of_singleton.
    + right; right. simpl. split_and!; [done|apply NoDup_singleton|done].
Qed.

Lemma packet_update_progress (G : Graph) (k : nat) (p p' : Packet) :
  closed G → progress G k p → packet_update G p p' → progress G (S k) p'.
Proof.
  intros Hclosed (Hin & Hpath & Hcase) Hup.
  destruct Hup as [Hc|Hc Hd|Hc Hd Hnil|nbs hop Hc Hd Hnbs Hhop].
  - split_and!; [done..|by left].
  - split_and!; [done..|by left].
  - split_and!; [done| |].
    + simpl. intros x [Hx| ->%list_elem_of_singleton]%elem_of_app;
        [by apply Hpath|done].
    + right; left. split_and!; [done..|].
      apply (candidates_empty_mono G p); [done| |done]. simpl. set_solver.
  - assert (hop ∈ nodes G) as Hhop_in.
    { destruct (candidates_total G Hclosed p Hin) as (nbs' & Hc' & Hall).
      apply Hall. congruence. }
    split_and!; [done| |].
    + simpl. intros x [Hx| ->%list_elem_of_singleton]%elem_of_app;
        [by apply Hpath|done].
    + right; right.
      destruct Hcase as [Hcase|[(_ & _ & Hnil)|(_ & Hnd & Hlen)]].
      * congruence.
      * rewrite Hnil in Hnbs. injection Hnbs as <-.
        by apply elem_of_nil in Hhop.
      * simpl. split_and!; [done| |by rewrite length_app, Hlen; simpl; lia].
        apply NoDup_app. split_and!; [done| |apply NoDup_singleton].
        intros x Hx ->%list_elem_of_singleton.
        by apply (candidates_not_visited G p nbs hop).
Qed.

Lemma nsteps_update_progress (G : Graph) (k m : nat) (p p' : Packet) :
  closed G → progress G k p → nsteps (packet_update G) m p p' →
  progress G (k + m) p'.
Proof.
  intros Hclosed Hp Hn. revert k Hp.
  induction Hn as [|n x y z Hxy _ IH]; intros k Hp.
  - by rewrite Nat.add_0_r.
  - replace (k + S n) with (S k + n) by lia.
    by apply IH, (packet_update_progress G k x).
Qed.

(** An unmarked packet on its destination after [steps] iterations has a
    path of [steps + 1] distinct nodes of the graph. *)
Lemma unmarked_arrival_needs_room (G : Graph) (packets : nat)
    (rnd : nat → nat * nat) (pl0 : list Packet) (steps : nat) (s : Sim)
    (p : Packet) :
  closed G →
  create_packets G packets rnd = Ok pl0 →
  run_steps G steps {| packet_list := pl0; frames := [] |} = Ok s →
  p ∈ packet_list s →
  current p = dst p → completed p = false →
  NoDup (path p) ∧ length (path p) = S steps
  ∧ S steps ≤ length (nodes G).
Proof.
  intros Hclosed Hnew [Hrun _]%run_steps_update Hp Hcur Hcomp.
  simpl in Hrun.
  apply create_packets_from_progress in Hnew; [|by apply Forall_nil].
  apply list_elem_of_lookup in Hp as [i Hi].
  destruct (Forall2_lookup_r _ _ _ _ _ Hrun Hi) as (p0 & H0 & Hn).
  assert (progress G 0 p0) as Hp0.
  { rewrite Forall_forall in Hnew. by eapply Hnew, list_elem_of_lookup_2. }
  destruct (nsteps_update_progress G 0 steps p0 p Hclosed Hp0 Hn)
    as (_ & Hpath & [?|[(_ & ? & _)|(_ & Hnd & Hlen)]]); [congruence..|].
  simpl in Hlen. split_and!; [done..|].
  rewrite <- Hlen. by apply submseteq_length, NoDup_submseteq.
Qed.

Lemma length_bind_const {A B} (f : A → list B) (c : nat) (l : list A) :
  (∀ x, length (f x) = c) → length (l ≫= f) = length l * c.
Proof.
  intros Hf. induction l as [|x l IH]; csimpl; [done|].
  by rewrite length_app, Hf, IH.
Qed.

Lemma length_grid_nodes (m n : nat) : length (grid_nodes m n) = m * n.
Proof.
  unfold grid_nodes.
  rewrite (length_bind_const _ n), length_seq; [done|].
  intros i. rewrite (length_bind_const _ 1), length_seq; [lia|done].
Qed.

Lemma grid_2d_graph_size (m n : nat) (periodic : bool) :
  length (nodes (grid_2d_graph m n periodic)) ≤ m * n.
Proof.
  rewrite <- length_grid_nodes. apply submseteq_length, NoDup_submseteq.
  - rewrite grid_2d_graph_build.
    by destruct (build_spec (grid_nodes m n) (grid_edges m n periodic)).
  - intros x Hx%grid_2d_graph_nodes. by apply grid_nodes_spec.
Qed.

(** On the mesh and the torus, and on the hypercube up to [n = 6], the
    graph has fewer than [max_steps n + 1] nodes: at the end of the run
    every packet that stands on its destination is marked, and its status
    is Completed.  (The sidebar offers [n] from 2 to 5.) *)
Lemma arrived_packets_are_marked (topology : Topology) (n packets : nat)
    (rnd : nat → nat * nat) (s : Sim) (p : Packet) :
  2 ≤ n → (topology = Hypercube → n ≤ 6) →
  simulate topology n packets rnd = Ok s →
  p ∈ packet_list s → current p = dst p →
  completed p = true ∧ status p = Completed.
Proof.
  intros Hn Hcube Hs Hp Hcur.
  destruct (completed p) eqn:Hcomp; [by unfold status; rewrite Hcomp|].
  exfalso.
  unfold simulate in Hs.
  destruct (create_packets (generate_topology topology n) packets rnd)
    as [pl0|e] eqn:Hpl0; [|done].
  simpl in Hs.
  destruct (unmarked_arrival_needs_room _ _ _ _ _ _ _
              (generate_topology_closed topology n) Hpl0 Hs Hp Hcur Hcomp)
    as (_ & _ & Hroom).
  unfold max_steps in Hroom.
  destruct topology; simpl in Hroom.
  - pose proof (grid_2d_graph_size n n false). nia.
  - pose proof (grid_2d_graph_size n n true). nia.
  - specialize (Hcube eq_refl).
    assert (n = 2 ∨ n = 3 ∨ n = 4 ∨ n = 5 ∨ n = 6) as Hcases by lia.
    revert Hroom.
    destruct Hcases as [-> | [-> | [-> | [-> | ->]]]]; vm_compute; lia.
Qed.

(** * The claims about the topology and the whole run *)

(** C1, on the 2 x 2 torus: networkx adds the wrap-around edges only when a
    dimension has more than two positions, so the torus of size 2 is the
    2 x 2 square, and its node (0, 0) has two neighbours, not four. *)
Lemma torus_2_node_has_degree_2 :
  2 ≤ 2
  ∧ [0; 0] ∈ nodes (generate_topology Torus 2)
  ∧ degree (generate_topology Torus 2) [0; 0] = 2
  ∧ degree (generate_topology Torus 2) [0; 0] ≠ 4.
Proof.
  split_and!; [lia|by_compute|by vm_compute|by vm_compute].
Qed.

(** C1, with the torus from size 3 on: for every size [n >= 2] the three
    topologies are connected; on the mesh a corner has degree 2, a node on
    a side that is not a corner degree 3 and an inner node degree 4; on the
    torus every node has degree 4 as soon as [n >= 3], and degree 2 when
    [n = 2]; on the hypercube every node has degree [n]. *)
Theorem topology_connected_and_degrees (n : nat) :
  2 ≤ n →
  (∀ topology, connected (generate_topology topology n))
  ∧ (∀ i j, (i = 0 ∨ i = n - 1) → (j = 0 ∨ j = n - 1) →
       degree (generate_topology Mesh n) [i; j] = 2)
  ∧ (∀ i j, i < n → j < n →
       ((i = 0 ∨ i = n - 1) ∧ 0 < j < n - 1)
       ∨ (0 < i < n - 1 ∧ (j = 0 ∨ j = n - 1)) →
       degree (generate_topology Mesh n) [i; j] = 3)
  ∧ (∀ i j, 0 < i < n - 1 → 0 < j < n - 1 →
       degree (generate_topology Mesh n) [i; j] = 4)
  ∧ (3 ≤ n → ∀ u, u ∈ nodes (generate_topology Torus n) →
       degree (generate_topology Torus n) u = 4)
  ∧ (n = 2 → ∀ u, u ∈ nodes (generate_topology Torus n) →
       degree (generate_topology Torus n) u = 2)
  ∧ (∀ u, u ∈ nodes (generate_topology Hypercube n) →
       degree (generate_topology Hypercube n) u = n).
Proof.
  intros Hn. split_and!.
  - intros [| |]; simpl;
      [apply grid_2d_graph_connected..|apply hypercube_graph_connected].
  - intros i j Hi Hj. simpl.
    rewrite grid_2d_graph_degree, !length_line_nbrs by lia. simpl.
    repeat case_decide; lia.
  - intros i j Hi Hj Hside. simpl.
    rewrite grid_2d_graph_degree, !length_line_nbrs by lia. simpl.
    repeat case_decide; lia.
  - intros i j Hi Hj. simpl.
    rewrite grid_2d_graph_degree, !length_line_nbrs by lia. simpl.
    repeat case_decide; lia.
  - intros Hn3 u (i & j & Hi & Hj & ->)%grid_2d_graph_nodes. simpl.
    rewrite grid_2d_graph_degree, !length_line_nbrs by lia. simpl.
    rewrite bool_decide_eq_true_2 by lia.
    repeat case_decide; lia.
  - intros -> u (i & j & Hi & Hj & ->)%grid_2d_graph_nodes. simpl.
    rewrite grid_2d_graph_degree, !length_line_nbrs by lia. simpl.
    repeat case_decide; lia.
  - intros u Hu. simpl in *. apply hypercube_graph_degree; [lia|done].
Qed.

Lemma topology_connected_and_degrees_witness :
  2 ≤ 3
  ∧ (∀ topology, connected (generate_topology topology 3))
  ∧ degree (generate_topology Mesh 3) [0; 2] = 2
  ∧ degree (generate_topology Mesh 3) [1; 1] = 4
  ∧ degree (generate_topology Torus 3) [0; 2] = 4
  ∧ degree (generate_topology Hypercube 3) [0; 1; 1] = 3
  ∧ 2 ≤ 2
  ∧ degree (generate_topology Torus 2) [1; 1] = 2.
Proof.
  assert (2 ≤ 3) as H23 by lia.
  assert (2 ≤ 2) as H22 by lia.
  destruct (topology_connected_and_degrees 3 H23)
    as (Hc & Hcorner & _ & Hinner & Htorus & _ & Hcube).
  destruct (topology_connected_and_degrees 2 H22)
    as (_ & _ & _ & _ & _ & Htorus2 & _).
  split_and!; [done|done|..].
  - apply Hcorner; [by left|by right].
  - apply Hinner; simpl; lia.
  - apply Htorus; [lia|]. by_compute.
  - apply Hcube. by_compute.
  - done.
  - apply Htorus2; [done|]. by_compute.
Defined.

(** C7: with a supported topology, [n >= 2] and at least one packet, the
    run raises nothing.  The population [random.sample] draws from has at
    least two nodes, the packets are created, the loop runs to its end; the
    router returns a node of the graph for every packet that stands on a
    node of the graph, and where it calls [min] the list is not empty and
    [min] returns. *)
Theorem simulation_raises_nothing
    (topology : Topology) (n packets : nat) (rnd : nat → nat * nat) :
  2 ≤ n → 1 ≤ packets →
  2 ≤ length (nodes (generate_topology topology n))
  ∧ (∃ pl, create_packets (generate_topology topology n) packets rnd = Ok pl
           ∧ length pl = packets)
  ∧ (∃ s, simulate topology n packets rnd = Ok s)
  ∧ (∀ pl p, in_graph (generate_topology topology n) p →
       ∃ hop p',
         adaptive_next_hop (generate_topology topology n) pl p = Ok (hop, p')
         ∧ hop ∈ nodes (generate_topology topology n))
  ∧ (∀ pl p nbs,
       candidates (generate_topology topology n) p = Ok nbs → nbs ≠ [] →
       ∃ hop,
         py_min (congestion pl) nbs = Ok hop
         ∧ adaptive_next_hop (generate_topology topology n) pl p
           = Ok (hop, p)).
Proof.
  intros Hn Hk.
  destruct (simulate_total topology n packets rnd Hn)
    as (pl & s & Hpl & Hlen & Hs & _).
  split_and!.
  - by apply generate_topology_two_nodes.
  - by exists pl.
  - by exists s.
  - intros pl' p Hp.
    apply adaptive_next_hop_total; [apply generate_topology_closed|done].
  - intros pl' p [|x xs] Hc Hne; [done|].
    destruct (py_min_first (congestion pl') x xs)
      as (hop & l1 & l2 & Hmin & _).
    exists hop. split; [done|].
    unfold adaptive_next_hop. rewrite Hc. simpl.
    change (py_min (congestion pl') (x :: xs) ≫= (λ hop, Ok (hop, p))
            = Ok (hop, p)).
    by rewrite Hmin.
Qed.

(** C3: for every topology, [n >= 2] and at least one packet the loop body
    runs [n * n * 2] times: that many frames are drawn, for the hypercube
    too.  An iteration that finds every packet completed still runs: it
    draws its frame and leaves the packets as they are. *)
Theorem loop_runs_max_steps
    (topology : Topology) (n packets : nat) (rnd : nat → nat * nat) :
  2 ≤ n → 1 ≤ packets →
  max_steps n = n * n * 2
  ∧ (∃ s, simulate topology n packets rnd = Ok s
          ∧ length (frames s) = n * n * 2)
  ∧ (∀ s, Forall (λ p, completed p = true) (packet_list s) →
       ∃ s', sim_step (generate_topology topology n) s = Ok s'
             ∧ packet_list s' = packet_list s
             ∧ length (frames s') = S (length (frames s))).
Proof.
  intros Hn Hk. split_and!; [reflexivity| |].
  - destruct (simulate_total topology n packets rnd Hn)
      as (pl & s & _ & _ & Hs & Hrun).
    exists s. split; [done|].
    apply run_steps_update in Hrun as [_ ->]. simpl. unfold max_steps. lia.
  - intros s Hall.
    destruct (sim_step (generate_topology topology n) s) as [s'|e] eqn:Hs.
    + exists s'. destruct (sim_step_update _ _ _ Hs) as [Hup Hf].
      split_and!; [done| |rewrite Hf, length_app; simpl; lia].
      apply list_eq. intros i.
      destruct (packet_list s !! i) as [p|] eqn:Hi.
      * destruct (Forall2_lookup_l _ _ _ _ _ Hup Hi) as (p' & -> & Hpp').
        f_equal. apply packet_update_completed in Hpp'; [done|].
        rewrite Forall_forall in Hall.
        by eapply Hall, list_elem_of_lookup_2.
      * apply Forall2_length in Hup. apply lookup_ge_None in Hi.
        apply lookup_ge_None. lia.
    + exfalso. revert Hs. unfold sim_step, move_packets.
      generalize (seq 0 (length (packet_list s))). intros idx.
      assert (move_packets_from (generate_topology topology n) idx
                (packet_list s) = Ok (packet_list s)) as ->; [|done].
      induction idx as [|i idx IH]; simpl; [done|].
      assert (move_packet (generate_topology topology n) (packet_list s) i
              = Ok (packet_list s)) as ->; [|done].
      unfold move_packet.
      destruct (packet_list s !! i) as [p|] eqn:Hi; [|done].
      rewrite Forall_forall in Hall.
      by rewrite (Hall p (list_elem_of_lookup_2 _ _ _ Hi)).
Qed.

Lemma loop_runs_max_steps_witness :
  2 ≤ 3 ∧ 1 ≤ 1
  ∧ ∃ s, simulate Hypercube 3 1 (λ _, (0, 6)) = Ok s
         ∧ length (frames s) = 3 * 3 * 2.
Proof.
  assert (2 ≤ 3) as H1 by lia. assert (1 ≤ 1) as H2 by lia.
  destruct (loop_runs_max_steps Hypercube 3 1 (λ _, (0, 6)) H1 H2)
    as (_ & Hs & _).
  split_and!; [done..|exact Hs].
Defined.

Lemma simulation_raises_nothing_witness :
  2 ≤ 2 ∧ 1 ≤ 1
  ∧ 2 ≤ length (nodes (generate_topology Torus 2))
  ∧ ∃ s, simulate Torus 2 1 (λ _, (3, 1)) = Ok s.
Proof.
  assert (2 ≤ 2) as H1 by lia. assert (1 ≤ 1) as H2 by lia.
  destruct (simulation_raises_nothing Torus 2 1 (λ _, (3, 1)) H1 H2)
    as (Hlen & _ & Hs & _).
  split_and!; [done..|exact Hs].
Defined.

(** C6: the 2 x 2 mesh with one packet from (0, 0) to (1, 1).  After two
    iterations the path has three nodes and the packet stands on its
    destination; the node in between is the first neighbour of (0, 0) in
    [G.neighbors], which is one of (0, 1) and (1, 0); at the end of the run
    (eight iterations) the status is Completed.  The same holds for the
    whole script when the sample draws these two nodes. *)
Theorem mesh2_diagonal_route :
  (∃ s p via rest,
     run_steps mesh2 2 diagonal_start = Ok s
     ∧ packet_list s = [p]
     ∧ length (path p) = 3
     ∧ current p = [1; 1] ∧ current p = dst p
     ∧ path p = [[0; 0]; via; [1; 1]]
     ∧ neighbors mesh2 [0; 0] = Ok (via :: rest)
     ∧ (via = [0; 1] ∨ via = [1; 0]))
  ∧ (∃ s p,
       run_steps mesh2 (max_steps 2) diagonal_start = Ok s
       ∧ packet_list s = [p]
       ∧ status p = Completed
       ∧ length (path p) = 3 ∧ current p = [1; 1])
  ∧ (∃ s via,
       simulate Mesh 2 1 (λ _, (0, 2)) = Ok s
       ∧ summary s = [([[0; 0]; via; [1; 1]], Completed)]).
Proof.
  split_and!.
  - eexists _, _, _, _.
    split_and!; [vm_compute; reflexivity|reflexivity..|by right].
  - eexists _, _. split_and!; [vm_compute; reflexivity|reflexivity..].
  - eexists _, _. split_and!; [vm_compute; reflexivity|reflexivity].
Qed.

(** On the 7-cube, which the sidebar does not offer, a packet can enter its
    destination in the last iteration: 128 nodes leave room for the 98 moves
    of the run. *)
Lemma late_arrival_on_hypercube_7 :
  ∃ s p visited,
    simulate Hypercube 7 1 (λ _, (0, 26)) = Ok s
    ∧ p ∈ packet_list s
    ∧ path p = visited ++ [dst p]
    ∧ length visited = max_steps 7
    ∧ (dst p ∉ visited)
    ∧ current p = dst p
    ∧ completed p = false
    ∧ (path p, Blocked) ∈ summary s.
Proof.
  eexists _, _, _.
  split_and!; [vm_compute; reflexivity| | | | | | |].
  + apply list_elem_of_here.
  + simpl. match goal with |- ?l = _ => exact (eq_sym (take_drop 98 l)) end.
  + reflexivity.
  + by_compute.
  + reflexivity.
  + reflexivity.
  + apply list_elem_of_here.
Qed.

(** C9, on the sizes of the sidebar: no run of the script with 2 to 5 nodes
    per dimension ends with a packet that stands on its destination and is
    not marked, so none reports Blocked for a packet on its destination. *)
Lemma no_unmarked_arrival_at_run_end :
  ¬ ∃ topology n packets rnd s p,
      2 ≤ n ≤ 5 ∧ 1 ≤ packets ≤ 8
      ∧ simulate topology n packets rnd = Ok s
      ∧ p ∈ packet_list s
      ∧ current p = dst p
      ∧ completed p = false.
Proof.
  intros (topology & n & packets & rnd & s & p & Hn & _ & Hs & Hp & Hcur & Hc).
  destruct (arrived_packets_are_marked topology n packets rnd s p)
    as [Hc' _]; [lia|intros _; lia|done..|congruence].
Qed.

(** C9, as the script has it: in one iteration a packet ends up completed
    exactly when it was completed before or stood on its destination when
    the iteration reached it; a packet that the iteration moves onto its
    destination is not marked.  So within a run of the script a packet
    stands on its destination unmarked until the next iteration marks it.
    With 2 to 5 nodes per dimension this never lasts to the end of the
    run: every packet that stands on its destination then is marked, and
    its status is Completed. *)
Theorem completion_detected_one_step_late :
  (∀ G s s' i p,
     sim_step G s = Ok s' → packet_list s !! i = Some p →
     ∃ p', packet_list s' !! i = Some p'
           ∧ (completed p' = true
              ↔ completed p = true ∨ current p = dst p))
  ∧ (∃ topology n packets rnd pl0 t s s' p p',
       2 ≤ n ≤ 5 ∧ 1 ≤ packets ≤ 8
       ∧ create_packets (generate_topology topology n) packets rnd = Ok pl0
       ∧ S t ≤ max_steps n
       ∧ run_steps (generate_topology topology n) t
           {| packet_list := pl0; frames := [] |} = Ok s
       ∧ sim_step (generate_topology topology n) s = Ok s'
       ∧ packet_list s !! 0 = Some p
       ∧ packet_list s' !! 0 = Some p'
       ∧ current p = dst p ∧ completed p = false
       ∧ completed p' = true)
  ∧ (∀ topology n packets rnd s p,
       2 ≤ n ≤ 5 →
       simulate topology n packets rnd = Ok s →
       p ∈ packet_list s → current p = dst p →
       completed p = true ∧ status p = Completed).
Proof.
  split_and!.
  - intros G s s' i p [Hup _]%sim_step_update Hi.
    destruct (Forall2_lookup_l _ _ _ _ _ Hup Hi) as (p' & Hi' & Hpp').
    exists p'. split; [done|].
    destruct Hpp' as [Hc|Hc Hd|Hc Hd _|nbs hop Hc Hd _ _]; simpl;
      rewrite ?Hc; naive_solver.
  - exists Mesh, 2, 1, (λ _, (0, 2)), (packet_list diagonal_start), 2.
    eexists _, _, _, _.
    split_and!; [lia|lia|lia|lia|vm_compute; reflexivity|unfold max_steps; lia
                |vm_compute; reflexivity|vm_compute; reflexivity
                |reflexivity..].
  - intros topology n packets rnd s p Hn Hs Hp Hcur.
    apply (arrived_packets_are_marked topology n packets rnd s p);
      [lia|intros _; lia|done..].
Qed.

Lemma completion_detected_one_step_late_witness :
  sim_step mesh2 diagonal_start
  = Ok {| packet_list := [move_to [1; 0] (new_packet [0; 0] [1; 1])];
          frames := [[red; lightblue; lightblue; lightblue]] |}
  ∧ packet_list diagonal_start !! 0 = Some (new_packet [0; 0] [1; 1])
  ∧ (∃ p', [move_to [1; 0] (new_packet [0; 0] [1; 1])] !! 0 = Some p'
           ∧ (completed p' = true
              ↔ completed (new_packet [0; 0] [1; 1]) = true
                ∨ current (new_packet [0; 0] [1; 1])
                  = dst (new_packet [0; 0] [1; 1])))
  ∧ 2 ≤ 2 ≤ 5
  ∧ simulate Mesh 2 1 (λ _, (0, 2)) = Ok (diagonal_after 8)
  ∧ arrived ∈ packet_list (diagonal_after 8)
  ∧ current arrived = dst arrived
  ∧ completed arrived = true ∧ status arrived = Completed.
Proof.
  assert (sim_step mesh2 diagonal_start
          = Ok {| packet_list := [move_to [1; 0] (new_packet [0; 0] [1; 1])];
                  frames := [[red; lightblue; lightblue; lightblue]] |})
    as H1 by (vm_compute; reflexivity).
  assert (packet_list diagonal_start !! 0 = Some (new_packet [0; 0] [1; 1]))
    as H2 by reflexivity.
  assert (2 ≤ 2 ≤ 5) as H3 by lia.
  assert (simulate Mesh 2 1 (λ _, (0, 2)) = Ok (diagonal_after 8)) as H4
    by (vm_compute; reflexivity).
  assert (arrived ∈ packet_list (diagonal_after 8)) as H5 by by_compute.
  assert (current arrived = dst arrived) as H6 by reflexivity.
  split; [exact H1|]. split; [exact H2|].
  split;
    [exact (proj1 completion_detected_one_step_late _ _ _ _ _ H1 H2)|].
  split; [exact H3|]. split; [exact H4|]. split; [exact H5|].
  split; [exact H6|].
  exact (proj2 (proj2 completion_detected_one_step_late)
           Mesh 2 1 (λ _, (0, 2)) (diagonal_after 8) arrived H3 H4 H5 H6).
Defined.

(** * The statements at concrete configurations *)

(** Two packets on the 2 x 2 mesh: the second stands on (1, 0), the first
    neighbour of (0, 0), so the packet on (0, 0) is sent to (0, 1). *)
Lemma router_first_least_congested_witness :
  contended !! 0 = Some (new_packet [0; 0] [1; 1])
  ∧ current (new_packet [0; 0] [1; 1]) ∈ path (new_packet [0; 0] [1; 1])
  ∧ neighbors mesh2 (current (new_packet [0; 0] [1; 1]))
    = Ok [[1; 0]; [0; 1]]
  ∧ filter (λ n, n ∉ path (new_packet [0; 0] [1; 1])) [[1; 0]; [0; 1]] ≠ []
  ∧ (∃ hop l1 l2,
       adaptive_next_hop mesh2 contended (new_packet [0; 0] [1; 1])
       = Ok (hop, new_packet [0; 0] [1; 1])
       ∧ filter (λ n, n ∉ path (new_packet [0; 0] [1; 1]))
           [[1; 0]; [0; 1]]
         = l1 ++ hop :: l2
       ∧ (∀ y, y ∈ l1 → others_on contended 0 hop < others_on contended 0 y)
       ∧ (∀ y, y ∈ l2 → others_on contended 0 hop ≤ others_on contended 0 y))
  ∧ adaptive_next_hop mesh2 contended (new_packet [0; 0] [1; 1])
    = Ok ([0; 1], new_packet [0; 0] [1; 1])
  ∧ others_on contended 0 [1; 0] = 1
  ∧ others_on contended 0 [0; 1] = 0.
Proof.
  assert (contended !! 0 = Some (new_packet [0; 0] [1; 1])) as H1
    by reflexivity.
  assert (current (new_packet [0; 0] [1; 1])
          ∈ path (new_packet [0; 0] [1; 1])) as H2
    by (simpl; apply list_elem_of_here).
  assert (neighbors mesh2 (current (new_packet [0; 0] [1; 1]))
          = Ok [[1; 0]; [0; 1]]) as H3 by (vm_compute; reflexivity).
  assert (filter (λ n, n ∉ path (new_packet [0; 0] [1; 1]))
            [[1; 0]; [0; 1]] ≠ []) as H4 by (vm_compute; discriminate).
  split; [exact H1|]. split; [exact H2|]. split; [exact H3|].
  split; [exact H4|].
  split;
    [exact (router_first_least_congested mesh2 contended 0 _ _ H1 H2 H3 H4)|].
  split_and!; vm_compute; reflexivity.
Defined.

(** The dead end of the specification (every neighbour of the current node
    is in the path), and a fresh packet on the same corner, which moves. *)
Lemma router_blocked_iff_no_progress_witness :
  current cornered ∈ path cornered
  ∧ neighbors mesh2 (current cornered) = Ok [[1; 0]; [0; 1]]
  ∧ (∃ hop p',
       adaptive_next_hop mesh2 [cornered] cornered = Ok (hop, p')
       ∧ (filter (λ n, n ∉ path cornered) [[1; 0]; [0; 1]] = []
          ↔ hop = current cornered)
       ∧ (hop = current cornered
          ↔ blocked_steps p' = blocked_steps cornered + 1)
       ∧ (hop ≠ current cornered
          ↔ blocked_steps p' = blocked_steps cornered)
       ∧ (filter (λ n, n ∉ path cornered) [[1; 0]; [0; 1]] ≠ [] →
            hop ∈ filter (λ n, n ∉ path cornered) [[1; 0]; [0; 1]]
            ∧ hop ∈ [[1; 0]; [0; 1]] ∧ hop ∉ path cornered)
       ∧ src p' = src cornered ∧ dst p' = dst cornered
       ∧ current p' = current cornered
       ∧ path p' = path cornered ∧ completed p' = completed cornered)
  ∧ adaptive_next_hop mesh2 [cornered] cornered
    = Ok ([0; 0], incr_blocked cornered)
  ∧ current (new_packet [0; 0] [1; 1]) ∈ path (new_packet [0; 0] [1; 1])
  ∧ neighbors mesh2 (current (new_packet [0; 0] [1; 1]))
    = Ok [[1; 0]; [0; 1]]
  ∧ (∃ hop p',
       adaptive_next_hop mesh2 contended (new_packet [0; 0] [1; 1])
       = Ok (hop, p')
       ∧ (filter (λ n, n ∉ path (new_packet [0; 0] [1; 1]))
            [[1; 0]; [0; 1]] = []
          ↔ hop = current (new_packet [0; 0] [1; 1]))
       ∧ (hop = current (new_packet [0; 0] [1; 1])
          ↔ blocked_steps p' = blocked_steps (new_packet [0; 0] [1; 1]) + 1)
       ∧ (hop ≠ current (new_packet [0; 0] [1; 1])
          ↔ blocked_steps p' = blocked_steps (new_packet [0; 0] [1; 1]))
       ∧ (filter (λ n, n ∉ path (new_packet [0; 0] [1; 1]))
            [[1; 0]; [0; 1]] ≠ [] →
            hop ∈ filter (λ n, n ∉ path (new_packet [0; 0] [1; 1]))
                    [[1; 0]; [0; 1]]
            ∧ hop ∈ [[1; 0]; [0; 1]]
            ∧ hop ∉ path (new_packet [0; 0] [1; 1]))
       ∧ src p' = src (new_packet [0; 0] [1; 1])
       ∧ dst p' = dst (new_packet [0; 0] [1; 1])
       ∧ current p' = current (new_packet [0; 0] [1; 1])
       ∧ path p' = path (new_packet [0; 0] [1; 1])
       ∧ completed p' = completed (new_packet [0; 0] [1; 1]))
  ∧ adaptive_next_hop mesh2 contended (new_packet [0; 0] [1; 1])
    = Ok ([0; 1], new_packet [0; 0] [1; 1]).
Proof.
  assert (current cornered ∈ path cornered) as H1 by by_compute.
  assert (neighbors mesh2 (current cornered) = Ok [[1; 0]; [0; 1]]) as H2
    by (vm_compute; reflexivity).
  assert (current (new_packet [0; 0] [1; 1])
          ∈ path (new_packet [0; 0] [1; 1])) as H3
    by (simpl; apply list_elem_of_here).
  assert (neighbors mesh2 (current (new_packet [0; 0] [1; 1]))
          = Ok [[1; 0]; [0; 1]]) as H4 by (vm_compute; reflexivity).
  split; [exact H1|]. split; [exact H2|].
  split;
    [exact (router_blocked_iff_no_progress mesh2 [cornered] cornered _ H1 H2)|].
  split; [vm_compute; reflexivity|].
  split; [exact H3|]. split; [exact H4|].
  split;
    [exact (router_blocked_iff_no_progress mesh2 contended _ _ H3 H4)|].
  vm_compute; reflexivity.
Defined.

Lemma completed_frozen_blocked_monotone_witness :
  ∃ s2,
    run_steps mesh2 5 {| packet_list := [arrived]; frames := [] |} = Ok s2
    ∧ [arrived] !! 0 = Some arrived
    ∧ ∃ p2,
        packet_list s2 !! 0 = Some p2
        ∧ blocked_steps arrived ≤ blocked_steps p2
        ∧ (completed arrived = true →
             current p2 = current arrived ∧ path p2 = path arrived
             ∧ completed p2 = true).
Proof.
  eexists.
  assert (run_steps mesh2 5 {| packet_list := [arrived]; frames := [] |}
          = Ok _) as H1 by (vm_compute; reflexivity).
  assert ([arrived] !! 0 = Some arrived) as H2 by reflexivity.
  split_and!; [exact H1|exact H2|].
  exact (completed_frozen_blocked_monotone mesh2 5 _ _ 0 arrived H1 H2).
Defined.

Lemma blocked_packet_never_recovers_witness :
  [cornered] !! 0 = Some cornered
  ∧ candidates mesh2 cornered = Ok []
  ∧ run_steps mesh2 2 {| packet_list := [cornered]; frames := [] |}
    = Ok (cornered_after 2)
  ∧ sim_step mesh2 (cornered_after 2) = Ok (cornered_after 3)
  ∧ ∃ p2 p3,
      packet_list (cornered_after 2) !! 0 = Some p2
      ∧ packet_list (cornered_after 3) !! 0 = Some p3
      ∧ candidates mesh2 p2 = Ok [] ∧ candidates mesh2 p3 = Ok []
      ∧ current p2 = current cornered ∧ current p3 = current cornered
      ∧ is_routed p2 = is_routed cornered
      ∧ blocked_steps p3
        = blocked_steps p2 + (if is_routed p2 then 1 else 0).
Proof.
  assert ([cornered] !! 0 = Some cornered) as H1 by reflexivity.
  assert (candidates mesh2 cornered = Ok []) as H2
    by (vm_compute; reflexivity).
  assert (run_steps mesh2 2 {| packet_list := [cornered]; frames := [] |}
          = Ok (cornered_after 2)) as H3 by (vm_compute; reflexivity).
  assert (sim_step mesh2 (cornered_after 2) = Ok (cornered_after 3)) as H4
    by (vm_compute; reflexivity).
  split_and!; [exact H1|exact H2|exact H3|exact H4|].
  exact (blocked_packet_never_recovers mesh2 2
           {| packet_list := [cornered]; frames := [] |}
           (cornered_after 2) (cornered_after 3) 0 cornered H1 H2 H3 H4).
Defined.

Lemma path_distinct_then_repeats_witness :
  create_packets mesh2 1 (λ _, (0, 2)) = Ok (packet_list diagonal_start)
  ∧ run_steps mesh2 5
      {| packet_list := packet_list diagonal_start; frames := [] |}
    = Ok (diagonal_after 5)
  ∧ arrived ∈ packet_list (diagonal_after 5)
  ∧ last (path arrived) = Some (current arrived)
  ∧ ∃ (d : list node) (r : nat),
      path arrived = d ++ replicate r (current arrived)
      ∧ NoDup d
      ∧ last d = Some (current arrived)
      ∧ (0 < r → candidates mesh2 arrived = Ok []).
Proof.
  assert (create_packets mesh2 1 (λ _, (0, 2))
          = Ok (packet_list diagonal_start)) as H1
    by (vm_compute; reflexivity).
  assert (run_steps mesh2 5
            {| packet_list := packet_list diagonal_start; frames := [] |}
          = Ok (diagonal_after 5)) as H2 by (vm_compute; reflexivity).
  assert (arrived ∈ packet_list (diagonal_after 5)) as H3 by by_compute.
  split; [exact H1|]. split; [exact H2|]. split; [exact H3|].
  exact (path_distinct_then_repeats mesh2 1 (λ _, (0, 2))
           (packet_list diagonal_start) 5 (diagonal_after 5) arrived
           H1 H2 H3).
Defined.


(** * Further properties of the script *)

(** ** What the loop keeps for every packet *)

Lemma walk_snoc (G : Graph) (l : list node) (c h : node) :
  walk G l → last l = Some c → h = c ∨ h ∈ nbrs G c → walk G (l ++ [h]).
Proof.
  intros Hw Hlast Hh i a b Ha Hb.
  apply lookup_snoc_Some in Hb as [[Hi Hb]|[Hi <-]].
  - rewrite lookup_app_l in Ha by lia. by apply (Hw i).
  - rewrite lookup_app_l in Ha by lia.
    rewrite last_lookup in Hlast.
    replace (pred (length l)) with i in Hlast by lia. congruence.
Qed.

Lemma candidates_nbrs (G : Graph) (p : Packet) (nbs : list node) (n : node) :
  candidates G p = Ok nbs → n ∈ nbs → n ∈ nbrs G (current p).
Proof.
  intros (nb & Hnb & ->)%candidates_spec [_ Hn]%list_elem_of_filter.
  unfold neighbors in Hnb. unfold nbrs.
  destruct (adj G (current p)); [|done]. by injection Hnb as ->.
Qed.

Lemma sound_new (G : Graph) (s d : node) : sound G (new_packet s d).
Proof.
  split_and!; simpl; [done| | |lia|done].
  - intros i a b Ha Hb. by destruct i.
  - exists [s]. split_and!; [done|apply NoDup_singleton|done].
Qed.

Lemma packet_update_sound (G : Graph) (p p' : Packet) :
  sound G p → packet_update G p p' → sound G p'.
Proof.
  intros (Hhead & Hwalk & (d & Hpath & Hnd & Hlast) & Hblocked & Hdone) Hup.
  assert (last (path p) = Some (current p)) as Hlastp.
  { rewrite Hpath. destruct (blocked_steps p) as [|b]; [by rewrite app_nil_r|].
    by rewrite replicate_S_end, app_assoc, last_snoc. }
  destruct Hup as [Hc|Hc Hd|Hc Hd Hnil|nbs hop Hc Hd Hnbs Hhop].
  - split_and!; [done|done|by exists d|done|done].
  - split_and!; [done|done|by exists d| |done].
    simpl. intros Hb. by destruct (Hblocked Hb) as (_ & ? & _).
  - split_and!.
    + simpl. rewrite head_app, Hhead. done.
    + simpl. apply (walk_snoc G _ (current p)); [done..|by left].
    + exists d. split_and!; [|done..].
      change (path p ++ [current p]
              = d ++ replicate (blocked_steps p + 1) (current p)).
      rewrite Nat.add_1_r, replicate_S_end, app_assoc. by rewrite <- Hpath.
    + intros _. split_and!; [|done..].
      apply (candidates_empty_mono G p); [done| |done]. simpl. set_solver.
    + simpl. congruence.
  - assert (blocked_steps p = 0) as Hb0.
    { destruct (blocked_steps p) as [|b] eqn:Hb; [done|].
      destruct Hblocked as (Hnil & _); [lia|].
      rewrite Hnil in Hnbs. injection Hnbs as <-.
      by apply elem_of_nil in Hhop. }
    rewrite Hb0 in Hpath. simpl in Hpath. rewrite app_nil_r in Hpath.
    split_and!.
    + simpl. rewrite head_app, Hhead. done.
    + simpl. apply (walk_snoc G _ (current p)); [done..|right].
      by apply (candidates_nbrs G p nbs).
    + exists (d ++ [hop]). simpl. rewrite Hb0. simpl. split_and!.
      * by rewrite Hpath, app_nil_r.
      * apply NoDup_app. split_and!; [done| |apply NoDup_singleton].
        intros x Hx ->%list_elem_of_singleton.
        apply (candidates_not_visited G p nbs hop); [done..|].
        by rewrite Hpath.
      * apply last_snoc.
    + simpl. lia.
    + simpl. congruence.
Qed.

Lemma timed_new (s d : node) : timed 0 (new_packet s d).
Proof. split; simpl; done. Qed.

Lemma packet_update_timed (G : Graph) (t : nat) (p p' : Packet) :
  timed t p → packet_update G p p' → timed (S t) p'.
Proof.
  intros [Hopen Hdone] Hup.
  destruct Hup as [Hc|Hc Hd|Hc Hd Hnil|nbs hop Hc Hd Hnbs Hhop];
    split; simpl; intros Hc'; try congruence.
  - specialize (Hdone Hc). lia.
  - specialize (Hopen Hc). lia.
  - rewrite length_app, (Hopen Hc). simpl. lia.
  - rewrite length_app, (Hopen Hc). simpl. lia.
Qed.

Lemma nsteps_update_sound (G : Graph) (m : nat) (p p' : Packet) :
  sound G p → nsteps (packet_update G) m p p' → sound G p'.
Proof.
  intros Hs Hn. induction Hn as [|n x y z Hxy _ IH]; [done|].
  by apply IH, (packet_update_sound G x).
Qed.

Lemma nsteps_update_timed (G : Graph) (t m : nat) (p p' : Packet) :
  timed t p → nsteps (packet_update G) m p p' → timed (t + m) p'.
Proof.
  intros Hp Hn. revert t Hp.
  induction Hn as [|n x y z Hxy _ IH]; intros t Hp.
  - by rewrite Nat.add_0_r.
  - replace (t + S n) with (S t + n) by lia.
    by apply IH, (packet_update_timed G t x).
Qed.

Lemma nsteps_update_src_dst (G : Graph) (m : nat) (p p' : Packet) :
  nsteps (packet_update G) m p p' → src p' = src p ∧ dst p' = dst p.
Proof.
  induction 1 as [|n x y z Hxy _ [-> ->]]; [done|]. by destruct Hxy.
Qed.

(** Every packet of a run that starts from freshly created packets. *)
Lemma run_fresh_invariants (G : Graph) (packets : nat)
    (rnd : nat → nat * nat) (pl0 : list Packet) (t : nat) (s : Sim)
    (i : nat) (p : Packet) :
  create_packets G packets rnd = Ok pl0 →
  run_steps G t {| packet_list := pl0; frames := [] |} = Ok s →
  packet_list s !! i = Some p →
  sound G p ∧ timed t p
  ∧ ∃ s0 d0, pl0 !! i = Some (new_packet s0 d0)
             ∧ src p = s0 ∧ dst p = d0.
Proof.
  intros Hnew [Hrun _]%run_steps_update Hi. simpl in Hrun.
  apply create_packets_from_new in Hnew; [|by apply Forall_nil].
  destruct (Forall2_lookup_r _ _ _ _ _ Hrun Hi) as (p0 & H0 & Hn).
  rewrite Forall_forall in Hnew.
  destruct (Hnew p0) as (s0 & d0 & ->); [by eapply list_elem_of_lookup_2|].
  split_and!.
  - apply (nsteps_update_sound G t (new_packet s0 d0)); [|done].
    apply sound_new.
  - apply (nsteps_update_timed G 0 t (new_packet s0 d0)); [|done].
    apply timed_new.
  - exists s0, d0. split; [done|].
    by destruct (nsteps_update_src_dst G t _ _ Hn) as [-> ->].
Qed.

(** ** One iteration, packet by packet *)

(** X1: in one iteration a packet keeps its source and destination.  A
    packet that is not routed (completed, or standing on its destination)
    keeps its node, path and [blocked_steps].  A routed packet stays
    unmarked and gets its new node appended to the path: either the node it
    was on, with [blocked_steps] one larger, or a neighbour of that node
    that was not in the path, with [blocked_steps] unchanged. *)
Theorem iteration_moves_along_edges
    (G : Graph) (s s' : Sim) (i : nat) (p : Packet) :
  sim_step G s = Ok s' →
  packet_list s !! i = Some p →
  ∃ p',
    packet_list s' !! i = Some p'
    ∧ src p' = src p ∧ dst p' = dst p
    ∧ (is_routed p = false →
         current p' = current p ∧ path p' = path p
         ∧ blocked_steps p' = blocked_steps p)
    ∧ (is_routed p = true →
         path p' = path p ++ [current p'] ∧ completed p' = false
         ∧ ((current p' = current p
             ∧ blocked_steps p' = blocked_steps p + 1)
            ∨ (current p' ∈ nbrs G (current p) ∧ (current p' ∉ path p)
               ∧ blocked_steps p' = blocked_steps p))).
Proof.
  intros [Hup _]%sim_step_update Hi.
  destruct (Forall2_lookup_l _ _ _ _ _ Hup Hi) as (p' & Hi' & Hpp').
  exists p'. split; [done|]. unfold is_routed.
  destruct Hpp' as [Hc|Hc Hd|Hc Hd Hnil|nbs hop Hc Hd Hnbs Hhop]; simpl;
    rewrite Hc; simpl.
  - split_and!; done.
  - rewrite bool_decide_eq_false_2 by (intros ?; done). split_and!; done.
  - rewrite bool_decide_eq_true_2 by done.
    split_and!; [done..|]. intros _. split_and!; [done..|by left].
  - rewrite bool_decide_eq_true_2 by done.
    split_and!; [done..|]. intros _. split_and!; [done..|right].
    split_and!; [|by eapply candidates_not_visited|done].
    by apply (candidates_nbrs G p nbs).
Qed.

Lemma iteration_moves_along_edges_witness :
  sim_step mesh3 (detour_after 1) = Ok (detour_after 2)
  ∧ packet_list (detour_after 1) !! 0 = Some (detour_packet 1)
  ∧ ∃ p',
      packet_list (detour_after 2) !! 0 = Some p'
      ∧ src p' = src (detour_packet 1) ∧ dst p' = dst (detour_packet 1)
      ∧ (is_routed (detour_packet 1) = false →
           current p' = current (detour_packet 1)
           ∧ path p' = path (detour_packet 1)
           ∧ blocked_steps p' = blocked_steps (detour_packet 1))
      ∧ (is_routed (detour_packet 1) = true →
           path p' = path (detour_packet 1) ++ [current p']
           ∧ completed p' = false
           ∧ ((current p' = current (detour_packet 1)
               ∧ blocked_steps p' = blocked_steps (detour_packet 1) + 1)
              ∨ (current p' ∈ nbrs mesh3 (current (detour_packet 1))
                 ∧ (current p' ∉ path (detour_packet 1))
                 ∧ blocked_steps p' = blocked_steps (detour_packet 1)))).
Proof.
  assert (sim_step mesh3 (detour_after 1) = Ok (detour_after 2)) as H1
    by (vm_compute; reflexivity).
  assert (packet_list (detour_after 1) !! 0 = Some (detour_packet 1)) as H2
    by (vm_compute; reflexivity).
  split; [exact H1|]. split; [exact H2|].
  exact (iteration_moves_along_edges mesh3 (detour_after 1) (detour_after 2)
           0 (detour_packet 1) H1 H2).
Defined.

(** ** Runs that start from freshly created packets *)

(** X2: after [t] iterations a packet that is not marked has a path of
    [t + 1] entries (one per iteration, after the source); a marked packet
    has at most [t] entries; and [blocked_steps] is at most [t]. *)
Theorem path_length_counts_iterations
    (G : Graph) (packets : nat) (rnd : nat → nat * nat)
    (pl0 : list Packet) (t : nat) (s : Sim) (p : Packet) :
  create_packets G packets rnd = Ok pl0 →
  run_steps G t {| packet_list := pl0; frames := [] |} = Ok s →
  p ∈ packet_list s →
  (completed p = false → length (path p) = t + 1)
  ∧ (completed p = true → length (path p) ≤ t)
  ∧ blocked_steps p < length (path p)
  ∧ blocked_steps p ≤ t.
Proof.
  intros Hnew Hrun [i Hi]%list_elem_of_lookup.
  destruct (run_fresh_invariants G packets rnd pl0 t s i p Hnew Hrun Hi)
    as ((_ & _ & (d & Hpath & _ & Hlast) & _) & [Hopen Hdone] & _).
  assert (blocked_steps p < length (path p)) as Hlt.
  { rewrite Hpath, length_app, length_replicate.
    destruct d; [done|]. simpl. lia. }
  split_and!; [intros Hc; rewrite (Hopen Hc); lia|done|done|].
  destruct (completed p); [specialize (Hdone eq_refl)|specialize (Hopen eq_refl)];
    lia.
Qed.

Lemma path_length_counts_iterations_witness :
  create_packets mesh3 1 (λ _, (1, 1)) = Ok (packet_list detour_start)
  ∧ run_steps mesh3 8
      {| packet_list := packet_list detour_start; frames := [] |}
    = Ok (detour_after 8)
  ∧ detour_packet 8 ∈ packet_list (detour_after 8)
  ∧ (completed (detour_packet 8) = false →
       length (path (detour_packet 8)) = 8 + 1)
  ∧ (completed (detour_packet 8) = true →
       length (path (detour_packet 8)) ≤ 8)
  ∧ blocked_steps (detour_packet 8) < length (path (detour_packet 8))
  ∧ blocked_steps (detour_packet 8) ≤ 8.
Proof.
  assert (create_packets mesh3 1 (λ _, (1, 1))
          = Ok (packet_list detour_start)) as H1
    by (vm_compute; reflexivity).
  assert (run_steps mesh3 8
            {| packet_list := packet_list detour_start; frames := [] |}
          = Ok (detour_after 8)) as H2 by (vm_compute; reflexivity).
  assert (detour_packet 8 ∈ packet_list (detour_after 8)) as H3
    by by_compute.
  split; [exact H1|]. split; [exact H2|]. split; [exact H3|].
  exact (path_length_counts_iterations mesh3 1 (λ _, (1, 1))
           (packet_list detour_start) 8 (detour_after 8) (detour_packet 8)
           H1 H2 H3).
Defined.

(** X3: [blocked_steps] counts the repeated entries of the path: the path
    is a list of pairwise distinct nodes that ends at the current node,
    followed by exactly [blocked_steps] more copies of the current node. *)
Theorem blocked_steps_counts_repeats
    (G : Graph) (packets : nat) (rnd : nat → nat * nat)
    (pl0 : list Packet) (t : nat) (s : Sim) (p : Packet) :
  create_packets G packets rnd = Ok pl0 →
  run_steps G t {| packet_list := pl0; frames := [] |} = Ok s →
  p ∈ packet_list s →
  ∃ d,
    path p = d ++ replicate (blocked_steps p) (current p)
    ∧ NoDup d
    ∧ last d = Some (current p)
    ∧ length (path p) = length d + blocked_steps p.
Proof.
  intros Hnew Hrun [i Hi]%list_elem_of_lookup.
  destruct (run_fresh_invariants G packets rnd pl0 t s i p Hnew Hrun Hi)
    as ((_ & _ & (d & Hpath & Hnd & Hlast) & _) & _ & _).
  exists d. split_and!; [done..|].
  by rewrite Hpath at 1; rewrite length_app, length_replicate.
Qed.

Lemma blocked_steps_counts_repeats_witness :
  create_packets mesh3 1 (λ _, (1, 1)) = Ok (packet_list detour_start)
  ∧ run_steps mesh3 8
      {| packet_list := packet_list detour_start; frames := [] |}
    = Ok (detour_after 8)
  ∧ detour_packet 8 ∈ packet_list (detour_after 8)
  ∧ ∃ d,
      path (detour_packet 8)
      = d ++ replicate (blocked_steps (detour_packet 8))
                       (current (detour_packet 8))
      ∧ NoDup d
      ∧ last d = Some (current (detour_packet 8))
      ∧ length (path (detour_packet 8))
        = length d + blocked_steps (detour_packet 8).
Proof.
  assert (create_packets mesh3 1 (λ _, (1, 1))
          = Ok (packet_list detour_start)) as H1
    by (vm_compute; reflexivity).
  assert (run_steps mesh3 8
            {| packet_list := packet_list detour_start; frames := [] |}
          = Ok (detour_after 8)) as H2 by (vm_compute; reflexivity).
  assert (detour_packet 8 ∈ packet_list (detour_after 8)) as H3
    by by_compute.
  split; [exact H1|]. split; [exact H2|]. split; [exact H3|].
  exact (blocked_steps_counts_repeats mesh3 1 (λ _, (1, 1))
           (packet_list detour_start) 8 (detour_after 8) (detour_packet 8)
           H1 H2 H3).
Defined.

(** X4: the packet at a position keeps the source and destination it was
    created with; its path starts at the source, and two consecutive
    entries of the path are the same node or joined by an edge of the
    graph. *)
Theorem path_is_walk_from_source
    (G : Graph) (packets : nat) (rnd : nat → nat * nat)
    (pl0 : list Packet) (t : nat) (s : Sim) (i : nat) (p : Packet) :
  create_packets G packets rnd = Ok pl0 →
  run_steps G t {| packet_list := pl0; frames := [] |} = Ok s →
  packet_list s !! i = Some p →
  pl0 !! i = Some (new_packet (src p) (dst p))
  ∧ head (path p) = Some (src p)
  ∧ (∀ k a b, path p !! k = Some a → path p !! S k = Some b →
       b = a ∨ b ∈ nbrs G a).
Proof.
  intros Hnew Hrun Hi.
  destruct (run_fresh_invariants G packets rnd pl0 t s i p Hnew Hrun Hi)
    as ((Hhead & Hwalk & _) & _ & (s0 & d0 & H0 & <- & <-)).
  split_and!; done.
Qed.

Lemma path_is_walk_from_source_witness :
  create_packets mesh3 1 (λ _, (1, 1)) = Ok (packet_list detour_start)
  ∧ run_steps mesh3 8
      {| packet_list := packet_list detour_start; frames := [] |}
    = Ok (detour_after 8)
  ∧ packet_list (detour_after 8) !! 0 = Some (detour_packet 8)
  ∧ packet_list detour_start !! 0
    = Some (new_packet (src (detour_packet 8)) (dst (detour_packet 8)))
  ∧ head (path (detour_packet 8)) = Some (src (detour_packet 8))
  ∧ (∀ k a b, path (detour_packet 8) !! k = Some a →
       path (detour_packet 8) !! S k = Some b →
       b = a ∨ b ∈ nbrs mesh3 a).
Proof.
  assert (create_packets mesh3 1 (λ _, (1, 1))
          = Ok (packet_list detour_start)) as H1
    by (vm_compute; reflexivity).
  assert (run_steps mesh3 8
            {| packet_list := packet_list detour_start; frames := [] |}
          = Ok (detour_after 8)) as H2 by (vm_compute; reflexivity).
  assert (packet_list (detour_after 8) !! 0 = Some (detour_packet 8)) as H3
    by (vm_compute; reflexivity).
  split; [exact H1|]. split; [exact H2|]. split; [exact H3|].
  exact (path_is_walk_from_source mesh3 1 (λ _, (1, 1))
           (packet_list detour_start) 8 (detour_after 8) 0 (detour_packet 8)
           H1 H2 H3).
Defined.

(** X5: a marked packet stands on its destination and was never blocked.
    A packet that was blocked once is never marked: after any number of
    further iterations it stands on the same node, which is not its
    destination, every iteration has added one to [blocked_steps], and its
    status is Blocked. *)
Theorem blocked_once_never_completed
    (G : Graph) (packets : nat) (rnd : nat → nat * nat)
    (pl0 : list Packet) (t m : nat) (s s2 : Sim) (i : nat) (p : Packet) :
  create_packets G packets rnd = Ok pl0 →
  run_steps G t {| packet_list := pl0; frames := [] |} = Ok s →
  run_steps G m s = Ok s2 →
  packet_list s !! i = Some p →
  (completed p = true → current p = dst p ∧ blocked_steps p = 0)
  ∧ (0 < blocked_steps p →
       ∃ p2, packet_list s2 !! i = Some p2
             ∧ current p2 = current p ∧ current p2 ≠ dst p2
             ∧ blocked_steps p2 = blocked_steps p + m
             ∧ completed p2 = false ∧ status p2 = Blocked).
Proof.
  intros Hnew Hrun Hrun2 Hi.
  destruct (run_fresh_invariants G packets rnd pl0 t s i p Hnew Hrun Hi)
    as ((_ & _ & _ & Hblocked & Hdone) & _ & _).
  split.
  - intros Hc. split; [by apply Hdone|].
    destruct (blocked_steps p) as [|b] eqn:Hb; [done|].
    destruct Hblocked as (_ & _ & ?); [lia|congruence].
  - intros Hb. destruct (Hblocked Hb) as (Hnil & Hne & Hc).
    apply run_steps_update in Hrun2 as [Hrun2 _].
    destruct (Forall2_lookup_l _ _ _ _ _ Hrun2 Hi) as (p2 & H2 & Hn).
    destruct (nsteps_update_stuck G m p p2 Hnil Hn) as (_ & Hcur & Hbl & Hr).
    destruct (nsteps_update_src_dst G m p p2 Hn) as [_ Hdst].
    assert (is_routed p = true) as Hrouted.
    { unfold is_routed. rewrite Hc. simpl. by apply bool_decide_eq_true_2. }
    rewrite Hrouted in Hbl, Hr.
    assert (completed p2 = false) as Hc2.
    { unfold is_routed in Hr. by destruct (completed p2). }
    exists p2. split_and!; [done|done|congruence|done|done|].
    unfold status. by rewrite Hc2.
Qed.

Lemma blocked_once_never_completed_witness :
  create_packets mesh3 1 (λ _, (1, 1)) = Ok (packet_list detour_start)
  ∧ run_steps mesh3 6
      {| packet_list := packet_list detour_start; frames := [] |}
    = Ok (detour_after 6)
  ∧ run_steps mesh3 12 (detour_after 6) = Ok (detour_after 18)
  ∧ packet_list (detour_after 6) !! 0 = Some (detour_packet 6)
  ∧ 0 < blocked_steps (detour_packet 6)
  ∧ ∃ p2, packet_list (detour_after 18) !! 0 = Some p2
          ∧ current p2 = current (detour_packet 6)
          ∧ current p2 ≠ dst p2
          ∧ blocked_steps p2 = blocked_steps (detour_packet 6) + 12
          ∧ completed p2 = false ∧ status p2 = Blocked.
Proof.
  assert (create_packets mesh3 1 (λ _, (1, 1))
          = Ok (packet_list detour_start)) as H1
    by (vm_compute; reflexivity).
  assert (run_steps mesh3 6
            {| packet_list := packet_list detour_start; frames := [] |}
          = Ok (detour_after 6)) as H2 by (vm_compute; reflexivity).
  assert (run_steps mesh3 12 (detour_after 6) = Ok (detour_after 18)) as H3
    by (vm_compute; reflexivity).
  assert (packet_list (detour_after 6) !! 0 = Some (detour_packet 6)) as H4
    by (vm_compute; reflexivity).
  assert (0 < blocked_steps (detour_packet 6)) as H5 by (vm_compute; lia).
  split; [exact H1|]. split; [exact H2|]. split; [exact H3|].
  split; [exact H4|]. split; [exact H5|].
  exact (proj2 (blocked_once_never_completed mesh3 1 (λ _, (1, 1))
                  (packet_list detour_start) 6 12 (detour_after 6)
                  (detour_after 18) 0 (detour_packet 6) H1 H2 H3 H4) H5).
Defined.

(** ** Creating the packets *)

Lemma generate_topology_NoDup (topology : Topology) (n : nat) :
  NoDup (nodes (generate_topology topology n)).
Proof.
  destruct topology; simpl.
  - rewrite grid_2d_graph_build.
    by destruct (build_spec (grid_nodes n n) (grid_edges n n false)).
  - rewrite grid_2d_graph_build.
    by destruct (build_spec (grid_nodes n n) (grid_edges n n true)).
  - destruct n as [|k]; simpl; [apply NoDup_nil_2|].
    match goal with |- NoDup (nodes (relabel_nodes ?G)) =>
      by destruct (build_spec (nodes G) (edges G)) end.
Qed.

Lemma create_packets_from_length (G : Graph) (rnd : nat → nat * nat)
    (rounds : list nat) (pl pl' : list Packet) :
  create_packets_from G rnd rounds pl = Ok pl' →
  length pl' = length pl + length rounds.
Proof.
  revert pl. induction rounds as [|t rounds IH]; intros pl; simpl.
  - intros [= <-]. lia.
  - destruct (random_sample2 (nodes G) (rnd t)) as [[s d]|e]; [|done].
    simpl. intros ->%IH. rewrite length_app. simpl. lia.
Qed.

Lemma create_packets_from_endpoints (G : Graph) (rnd : nat → nat * nat)
    (rounds : list nat) (pl pl' : list Packet) :
  NoDup (nodes G) →
  Forall (λ p, p = new_packet (src p) (dst p) ∧ src p ∈ nodes G
               ∧ dst p ∈ nodes G ∧ src p ≠ dst p) pl →
  create_packets_from G rnd rounds pl = Ok pl' →
  Forall (λ p, p = new_packet (src p) (dst p) ∧ src p ∈ nodes G
               ∧ dst p ∈ nodes G ∧ src p ≠ dst p) pl'.
Proof.
  intros Hnd. revert pl.
  induction rounds as [|t rounds IH]; intros pl Hpl; simpl.
  - by intros [= <-].
  - destruct (random_sample2 (nodes G) (rnd t)) as [[s d]|e] eqn:Hs; [|done].
    simpl. apply IH. apply Forall_app. split; [done|].
    apply Forall_singleton.
    apply random_sample2_elem in Hs as (Hs & Hd & Hne).
    split_and!; [done..|by apply Hne].
Qed.

(** X6: the packets the script creates on one of its topologies: as many
    as asked for, each one as [Packet(src, dst)] leaves it (on its source,
    path [[src]], not completed, never blocked), with source and destination
    two different nodes of the graph. *)
Theorem created_packets_have_distinct_endpoints
    (topology : Topology) (n packets : nat) (rnd : nat → nat * nat)
    (pl : list Packet) :
  create_packets (generate_topology topology n) packets rnd = Ok pl →
  length pl = packets
  ∧ ∀ p, p ∈ pl →
      p = new_packet (src p) (dst p)
      ∧ src p ∈ nodes (generate_topology topology n)
      ∧ dst p ∈ nodes (generate_topology topology n)
      ∧ src p ≠ dst p.
Proof.
  intros Hpl. split.
  - apply create_packets_from_length in Hpl. by rewrite length_seq in Hpl.
  - apply Forall_forall.
    eapply create_packets_from_endpoints;
      [apply generate_topology_NoDup|apply Forall_nil_2|exact Hpl].
Qed.

Lemma created_packets_have_distinct_endpoints_witness :
  create_packets (generate_topology Mesh 3) 1 (λ _, (1, 1))
  = Ok (packet_list detour_start)
  ∧ length (packet_list detour_start) = 1
  ∧ ∀ p, p ∈ packet_list detour_start →
      p = new_packet (src p) (dst p)
      ∧ src p ∈ nodes (generate_topology Mesh 3)
      ∧ dst p ∈ nodes (generate_topology Mesh 3)
      ∧ src p ≠ dst p.
Proof.
  assert (create_packets (generate_topology Mesh 3) 1 (λ _, (1, 1))
          = Ok (packet_list detour_start)) as H1
    by (vm_compute; reflexivity).
  split; [exact H1|].
  exact (created_packets_have_distinct_endpoints Mesh 3 1 (λ _, (1, 1))
           (packet_list detour_start) H1).
Defined.

(** X7: [random.sample] needs two nodes.  Creating no packet always works;
    creating at least one works when the graph has two nodes or more and
    raises [ValueError] otherwise, and then the whole script raises it: that
    is the case of the mesh and the torus of size 0 or 1 and of the
    hypercube of dimension 0. *)
Theorem create_packets_needs_two_nodes
    (G : Graph) (packets : nat) (rnd : nat → nat * nat) :
  (packets = 0 ∨ 2 ≤ length (nodes G) →
     ∃ pl, create_packets G packets rnd = Ok pl ∧ length pl = packets)
  ∧ (1 ≤ packets → length (nodes G) < 2 →
       create_packets G packets rnd = Raise ValueError)
  ∧ (∀ topology n, 1 ≤ packets → n < 2 → topology ≠ Hypercube ∨ n = 0 →
       simulate topology n packets rnd = Raise ValueError).
Proof.
  assert (Hraise : ∀ G', 1 ≤ packets → length (nodes G') < 2 →
            create_packets G' packets rnd = Raise ValueError).
  { intros G' Hk Hlen. unfold create_packets.
    destruct packets as [|k]; [lia|]. simpl.
    unfold random_sample2. by rewrite decide_True. }
  split_and!.
  - intros [->|Hlen]; [by exists []|].
    destruct (create_packets_from_total G rnd (seq 0 packets) [] Hlen)
      as (pl & Hpl & _ & Hl); [done|].
    exists pl. split; [done|]. by rewrite Hl, length_seq.
  - apply Hraise.
  - intros topology n Hk Hn Htop. unfold simulate.
    rewrite Hraise; [done..|].
    destruct n as [|[|n]]; [| |lia].
    + destruct topology; vm_compute; lia.
    + destruct topology; [vm_compute; lia..|]. by destruct Htop.
Qed.

Lemma create_packets_needs_two_nodes_witness :
  (1 = 0 ∨ 2 ≤ length (nodes mesh2) →
     ∃ pl, create_packets mesh2 1 (λ _, (0, 2)) = Ok pl ∧ length pl = 1)
  ∧ (1 ≤ 1 → length (nodes (generate_topology Mesh 1)) < 2 →
       create_packets (generate_topology Mesh 1) 1 (λ _, (0, 2))
       = Raise ValueError)
  ∧ (1 ≤ 1 → 1 < 2 → Torus ≠ Hypercube ∨ 1 = 0 →
       simulate Torus 1 1 (λ _, (0, 2)) = Raise ValueError).
Proof.
  split; [|split].
  - exact (proj1 (create_packets_needs_two_nodes mesh2 1 (λ _, (0, 2)))).
  - exact (proj1 (proj2 (create_packets_needs_two_nodes
                           (generate_topology Mesh 1) 1 (λ _, (0, 2))))).
  - exact (proj2 (proj2 (create_packets_needs_two_nodes
                           mesh2 1 (λ _, (0, 2)))) Torus 1).
Defined.

(** ** The router's only exception *)

(** X8: the router raises exactly when the packet's current node is not a
    node of the graph, and then it is [NetworkXError] from [G.neighbors];
    [min] never raises inside the router. *)
Theorem router_raises_iff_off_graph
    (G : Graph) (pl : list Packet) (p : Packet) (e : Exn) :
  adaptive_next_hop G pl p = Raise e
  ↔ e = NetworkXError ∧ current p ∉ nodes G.
Proof.
  destruct (decide (current p ∈ nodes G)) as [Hin|Hout].
  - assert (candidates G p
            = Ok (filter (λ n, n ∉ path p) (nbrs G (current p)))) as Hc.
    { unfold candidates. by rewrite (neighbors_nbrs G _ Hin). }
    split; [|by intros [_ ?]].
    destruct (filter (λ n, n ∉ path p) (nbrs G (current p))) as [|x xs].
    + by rewrite (adaptive_next_hop_empty G pl p Hc).
    + destruct (adaptive_next_hop_nonempty G pl p x xs Hc)
        as (hop & l1 & l2 & -> & _). done.
  - assert (candidates G p = Raise NetworkXError) as Hc.
    { unfold candidates, neighbors.
      apply adj_None in Hout. by rewrite Hout. }
    rewrite (adaptive_next_hop_raise G pl p _ Hc).
    split; [by intros [= <-]|by intros [-> _]].
Qed.

Lemma router_raises_iff_off_graph_witness :
  adaptive_next_hop mesh2 [] (new_packet [2; 2] [0; 0]) = Raise NetworkXError
  ∧ current (new_packet [2; 2] [0; 0]) ∉ nodes mesh2.
Proof.
  assert (adaptive_next_hop mesh2 [] (new_packet [2; 2] [0; 0])
          = Raise NetworkXError) as H1 by (vm_compute; reflexivity).
  split; [exact H1|].
  exact (proj2 (proj1 (router_raises_iff_off_graph mesh2 []
                         (new_packet [2; 2] [0; 0]) NetworkXError) H1)).
Defined.

(** ** What the router sees in the middle of an iteration *)

Lemma move_packet_frame (G : Graph) (pl pl1 : list Packet) (i : nat) :
  move_packet G pl i = Ok pl1 →
  length pl1 = length pl
  ∧ take i pl1 = take i pl
  ∧ drop (S i) pl1 = drop (S i) pl.
Proof.
  intros Hm. destruct (pl !! i) as [p|] eqn:Hi.
  - destruct (move_packet_update G pl pl1 i p Hi Hm) as (p' & -> & _).
    split_and!.
    + apply length_insert.
    + by apply take_insert_ge.
    + apply drop_insert_lt. lia.
  - rewrite (move_packet_out_of_range G pl i Hi) in Hm. by injection Hm as <-.
Qed.

Lemma take_le_eq {A} (l k : list A) (a b : nat) :
  a ≤ b → take b l = take b k → take a l = take a k.
Proof.
  intros Hab H. replace a with (a `min` b) by lia.
  by rewrite <- !take_take, H.
Qed.

Lemma move_packets_from_frame (G : Graph) (k a : nat) (pl pl' : list Packet) :
  move_packets_from G (seq a k) pl = Ok pl' →
  length pl' = length pl ∧ take a pl' = take a pl.
Proof.
  revert a pl. induction k as [|k IH]; intros a pl; simpl.
  - by intros [= <-].
  - destruct (move_packet G pl a) as [pl1|e] eqn:Hm; [|done]. simpl.
    intros [Hlen Htake]%IH.
    apply move_packet_frame in Hm as (Hlen1 & Htake1 & _).
    split; [congruence|].
    rewrite <- Htake1. apply (take_le_eq _ _ a (S a)); [lia|done].
Qed.

Lemma move_packets_from_view (G : Graph) (k a : nat) (pl pl' : list Packet)
    (i : nat) :
  move_packets_from G (seq a k) pl = Ok pl' →
  a ≤ i < a + k →
  move_packet G (take i pl' ++ drop i pl) i
  = Ok (take (S i) pl' ++ drop (S i) pl).
Proof.
  revert a pl. induction k as [|k IH]; intros a pl; simpl; [lia|].
  destruct (move_packet G pl a) as [pl1|e] eqn:Hm; [|done]. simpl.
  intros Hrest Hi.
  destruct (move_packet_frame G pl pl1 a Hm) as (Hlen1 & Htake1 & Hdrop1).
  destruct (move_packets_from_frame G k (S a) pl1 pl' Hrest)
    as (Hlen' & Htake').
  destruct (decide (i = a)) as [->|Hne].
  - assert (take a pl' = take a pl) as ->.
    { rewrite <- Htake1. apply (take_le_eq _ _ a (S a)); [lia|done]. }
    by rewrite take_drop, Htake', <- Hdrop1, take_drop.
  - assert (∀ j, S a ≤ j → drop j pl1 = drop j pl) as Hdrop.
    { intros j Hj. replace j with (S a + (j - S a)) by lia.
      by rewrite <- !drop_drop, Hdrop1. }
    rewrite <- !Hdrop by lia. apply (IH (S a)); [done|lia].
Qed.

(** X9: the packets are moved one after the other within an iteration, and
    the router reads the list as it is at that moment.  When the packet at
    position [i] is routed, the packets before it have already made their
    move of this iteration and the packets after it have not: the hop chosen
    for it is the router's answer on that mixed list. *)
Theorem router_sees_earlier_moves
    (G : Graph) (pl pl' : list Packet) (i : nat) (p : Packet) :
  move_packets G pl = Ok pl' →
  pl !! i = Some p →
  is_routed p = true →
  (take i pl' ++ drop i pl) !! i = Some p
  ∧ ∃ hop p1,
      adaptive_next_hop G (take i pl' ++ drop i pl) p = Ok (hop, p1)
      ∧ pl' !! i = Some (move_to hop p1).
Proof.
  intros Hmove Hi Hrouted.
  assert (i < length pl) as Hlt by by eapply lookup_lt_Some.
  destruct (move_packets_from_frame G (length pl) 0 pl pl' Hmove)
    as [Hlen _].
  pose proof (move_packets_from_view G (length pl) 0 pl pl' i Hmove) as Hview.
  assert ((take i pl' ++ drop i pl) !! i = Some p) as Hlook.
  { rewrite lookup_app_r by (rewrite length_take; lia).
    rewrite length_take, lookup_drop.
    replace (i + (i - i `min` length pl')) with i by lia. done. }
  split; [done|].
  specialize (Hview ltac:(lia)).
  unfold move_packet in Hview. rewrite Hlook in Hview.
  unfold is_routed in Hrouted.
  destruct (completed p); [done|]. simpl in Hrouted.
  apply bool_decide_eq_true_1 in Hrouted.
  rewrite decide_False in Hview by done.
  destruct (adaptive_next_hop G (take i pl' ++ drop i pl) p)
    as [[hop p1]|e]; [|done].
  simpl in Hview. injection Hview as Hview.
  exists hop, p1. split; [done|].
  assert ((take (S i) pl' ++ drop (S i) pl) !! i = pl' !! i) as <-.
  { rewrite lookup_app_l by (rewrite length_take; lia).
    apply lookup_take_lt. lia. }
  rewrite <- Hview. apply list_lookup_insert_eq.
  rewrite length_app, length_take, length_drop. lia.
Qed.

(** Two packets on the 2 x 2 mesh, both on (0, 0).  The first moves to
    (1, 0); when the second is routed the first one is counted on (1, 0),
    not on (0, 0), so the second goes to (0, 1). *)
Lemma router_sees_earlier_moves_witness :
  move_packets mesh2 [new_packet [0; 0] [1; 1]; new_packet [0; 0] [1; 1]]
  = Ok [move_to [1; 0] (new_packet [0; 0] [1; 1]);
        move_to [0; 1] (new_packet [0; 0] [1; 1])]
  ∧ [new_packet [0; 0] [1; 1]; new_packet [0; 0] [1; 1]] !! 1
    = Some (new_packet [0; 0] [1; 1])
  ∧ is_routed (new_packet [0; 0] [1; 1]) = true
  ∧ ∃ hop p1,
      adaptive_next_hop mesh2
        (take 1 [move_to [1; 0] (new_packet [0; 0] [1; 1]);
                 move_to [0; 1] (new_packet [0; 0] [1; 1])]
         ++ drop 1 [new_packet [0; 0] [1; 1]; new_packet [0; 0] [1; 1]])
        (new_packet [0; 0] [1; 1])
      = Ok (hop, p1)
      ∧ [move_to [1; 0] (new_packet [0; 0] [1; 1]);
         move_to [0; 1] (new_packet [0; 0] [1; 1])] !! 1
        = Some (move_to hop p1).
Proof.
  assert (move_packets mesh2
            [new_packet [0; 0] [1; 1]; new_packet [0; 0] [1; 1]]
          = Ok [move_to [1; 0] (new_packet [0; 0] [1; 1]);
                move_to [0; 1] (new_packet [0; 0] [1; 1])]) as H1
    by (vm_compute; reflexivity).
  assert ([new_packet [0; 0] [1; 1]; new_packet [0; 0] [1; 1]] !! 1
          = Some (new_packet [0; 0] [1; 1])) as H2 by reflexivity.
  assert (is_routed (new_packet [0; 0] [1; 1]) = true) as H3
    by (vm_compute; reflexivity).
  split; [exact H1|]. split; [exact H2|]. split; [exact H3|].
  exact (proj2 (router_sees_earlier_moves mesh2 _ _ 1 _ H1 H2 H3)).
Defined.

(** ** The run settles *)

(** Once there have been as many iterations as the graph has nodes, no
    packet is still on its way. *)
Lemma settled_after_node_count (G : Graph) (packets : nat)
    (rnd : nat → nat * nat) (pl0 : list Packet) (t : nat) (s : Sim)
    (p : Packet) :
  closed G →
  create_packets G packets rnd = Ok pl0 →
  run_steps G t {| packet_list := pl0; frames := [] |} = Ok s →
  length (nodes G) ≤ t →
  p ∈ packet_list s →
  (completed p = true ∧ current p = dst p)
  ∨ (completed p = false ∧ current p ≠ dst p ∧ candidates G p = Ok []).
Proof.
  intros Hclosed Hnew Hrun Ht Hp.
  pose proof Hp as [i Hi]%list_elem_of_lookup.
  destruct (run_fresh_invariants G packets rnd pl0 t s i p Hnew Hrun Hi)
    as ((_ & _ & _ & _ & Hdone) & _ & _).
  apply run_steps_update in Hrun as [Hrun _]. simpl in Hrun.
  apply create_packets_from_progress in Hnew; [|by apply Forall_nil].
  destruct (Forall2_lookup_r _ _ _ _ _ Hrun Hi) as (p0 & H0 & Hn).
  assert (progress G 0 p0) as Hp0.
  { rewrite Forall_forall in Hnew. by eapply Hnew, list_elem_of_lookup_2. }
  destruct (nsteps_update_progress G 0 t p0 p Hclosed Hp0 Hn)
    as (_ & Hpath & [Hc|[Hstuck|(_ & Hnd & Hlen)]]).
  - left. split; [done|by apply Hdone].
  - by right.
  - exfalso. simpl in Hlen.
    assert (length (path p) ≤ length (nodes G)) as Hle
      by by apply submseteq_length, NoDup_submseteq.
    lia.
Qed.

(** X10: on every topology of the script, once the loop has run as many
    iterations as the graph has nodes, every packet is either marked
    completed on its destination, or has no candidate left on a node that is
    not its destination (and by X5 stays there). *)
Theorem run_settles_within_node_count
    (topology : Topology) (n packets : nat) (rnd : nat → nat * nat)
    (pl0 : list Packet) (t : nat) (s : Sim) (p : Packet) :
  create_packets (generate_topology topology n) packets rnd = Ok pl0 →
  run_steps (generate_topology topology n) t
    {| packet_list := pl0; frames := [] |} = Ok s →
  length (nodes (generate_topology topology n)) ≤ t →
  p ∈ packet_list s →
  (completed p = true ∧ current p = dst p)
  ∨ (completed p = false ∧ current p ≠ dst p
     ∧ candidates (generate_topology topology n) p = Ok []).
Proof.
  intros Hnew Hrun Ht Hp.
  eapply settled_after_node_count;
    [apply generate_topology_closed|exact Hnew|exact Hrun|exact Ht|exact Hp].
Qed.

Lemma run_settles_within_node_count_witness :
  create_packets (generate_topology Mesh 3) 1 (λ _, (1, 1))
  = Ok (packet_list detour_start)
  ∧ run_steps (generate_topology Mesh 3) 9
      {| packet_list := packet_list detour_start; frames := [] |}
    = Ok (detour_after 9)
  ∧ length (nodes (generate_topology Mesh 3)) ≤ 9
  ∧ detour_packet 9 ∈ packet_list (detour_after 9)
  ∧ ((completed (detour_packet 9) = true
      ∧ current (detour_packet 9) = dst (detour_packet 9))
     ∨ (completed (detour_packet 9) = false
        ∧ current (detour_packet 9) ≠ dst (detour_packet 9)
        ∧ candidates (generate_topology Mesh 3) (detour_packet 9) = Ok [])).
Proof.
  assert (create_packets (generate_topology Mesh 3) 1 (λ _, (1, 1))
          = Ok (packet_list detour_start)) as H1
    by (vm_compute; reflexivity).
  assert (run_steps (generate_topology Mesh 3) 9
            {| packet_list := packet_list detour_start; frames := [] |}
          = Ok (detour_after 9)) as H2 by (vm_compute; reflexivity).
  assert (length (nodes (generate_topology Mesh 3)) ≤ 9) as H3
    by (vm_compute; lia).
  assert (detour_packet 9 ∈ packet_list (detour_after 9)) as H4
    by by_compute.
  split; [exact H1|]. split; [exact H2|]. split; [exact H3|].
  split; [exact H4|].
  exact (run_settles_within_node_count Mesh 3 1 (λ _, (1, 1))
           (packet_list detour_start) 9 (detour_after 9) (detour_packet 9)
           H1 H2 H3 H4).
Defined.

Lemma generate_topology_fits_run (topology : Topology) (n : nat) :
  (topology = Hypercube → n ≤ 6) →
  length (nodes (generate_topology topology n)) ≤ max_steps n.
Proof.
  intros Hcube. unfold max_steps. destruct topology; simpl.
  - pose proof (grid_2d_graph_size n n false). nia.
  - pose proof (grid_2d_graph_size n n true). nia.
  - specialize (Hcube eq_refl).
    assert (n = 0 ∨ n = 1 ∨ n = 2 ∨ n = 3 ∨ n = 4 ∨ n = 5 ∨ n = 6)
      as Hcases by lia.
    destruct Hcases as [-> | [-> | [-> | [-> | [-> | [-> | ->]]]]]];
      vm_compute; lia.
Qed.

(** X11: the summary of a run on the mesh or the torus, or on the hypercube
    up to dimension 6 (so for every value the sidebar offers), is settled:
    a packet reported Completed is marked and stands on its destination; a
    packet reported Blocked stands on another node and has no unvisited
    neighbour left. *)
Theorem final_report_is_settled
    (topology : Topology) (n packets : nat) (rnd : nat → nat * nat)
    (s : Sim) (p : Packet) :
  (topology = Hypercube → n ≤ 6) →
  simulate topology n packets rnd = Ok s →
  p ∈ packet_list s →
  (status p = Completed ∧ completed p = true ∧ current p = dst p)
  ∨ (status p = Blocked ∧ completed p = false ∧ current p ≠ dst p
     ∧ candidates (generate_topology topology n) p = Ok []).
Proof.
  intros Hcube Hs Hp. unfold simulate in Hs.
  destruct (create_packets (generate_topology topology n) packets rnd)
    as [pl0|e] eqn:Hpl0; [|done].
  simpl in Hs.
  destruct (settled_after_node_count _ _ _ _ _ _ _
              (generate_topology_closed topology n) Hpl0 Hs
              (generate_topology_fits_run topology n Hcube) Hp)
    as [[Hc Hd]|(Hc & Hd & Hnil)]; [left|right]; unfold status; rewrite Hc;
    done.
Qed.

Lemma final_report_is_settled_witness :
  (Mesh = Hypercube → 3 ≤ 6)
  ∧ simulate Mesh 3 1 (λ _, (1, 1)) = Ok (detour_after 18)
  ∧ detour_packet 18 ∈ packet_list (detour_after 18)
  ∧ ((status (detour_packet 18) = Completed
      ∧ completed (detour_packet 18) = true
      ∧ current (detour_packet 18) = dst (detour_packet 18))
     ∨ (status (detour_packet 18) = Blocked
        ∧ completed (detour_packet 18) = false
        ∧ current (detour_packet 18) ≠ dst (detour_packet 18)
        ∧ candidates (generate_topology Mesh 3) (detour_packet 18) = Ok [])).
Proof.
  assert (Mesh = Hypercube → 3 ≤ 6) as H1 by (intros _; lia).
  assert (simulate Mesh 3 1 (λ _, (1, 1)) = Ok (detour_after 18)) as H2
    by (vm_compute; reflexivity).
  assert (detour_packet 18 ∈ packet_list (detour_after 18)) as H3
    by by_compute.
  split; [exact H1|]. split; [exact H2|]. split; [exact H3|].
  exact (final_report_is_settled Mesh 3 1 (λ _, (1, 1)) (detour_after 18)
           (detour_packet 18) H1 H2 H3).
Defined.

(** ** The graphs of the three topologies *)

Lemma NoDup_grid_nodes (m n : nat) : NoDup (grid_nodes m n).
Proof.
  unfold grid_nodes. apply NoDup_bind; [| |apply NoDup_seq].
  - intros i1 i2 x _ _ H1 H2.
    apply list_elem_of_bind in H1 as (j1 & H1 & _).
    apply list_elem_of_bind in H2 as (j2 & H2 & _).
    apply list_elem_of_singleton in H1, H2. congruence.
  - intros i _. apply NoDup_bind; [| |apply NoDup_seq].
    + intros j1 j2 x _ _ H1 H2.
      apply list_elem_of_singleton in H1, H2. congruence.
    + intros j _. apply NoDup_singleton.
Qed.

Lemma all_bits_spec (n : nat) (u : node) : u ∈ all_bits n ↔ bits n u.
Proof.
  revert u. induction n as [|n IH]; intros u; simpl.
  - rewrite list_elem_of_singleton. split.
    + intros ->. by split.
    + intros [Hlen _]. by destruct u.
  - rewrite elem_of_app, !list_elem_of_fmap, bits_inv_S. split.
    + intros [(v & -> & Hv)|(v & -> & Hv)]; eexists _, v;
        (split_and!; [done| |by apply IH]); lia.
    + intros (b & v & -> & Hb & Hv%IH).
      destruct b as [|[|b]]; [left|right|lia]; by exists v.
Qed.

Lemma NoDup_all_bits (n : nat) : NoDup (all_bits n).
Proof.
  induction n as [|n IH]; simpl; [apply NoDup_singleton|].
  apply NoDup_app. split_and!.
  - apply NoDup_fmap_2; [by intros ?? [=]|done].
  - by intros x (u & -> & _)%list_elem_of_fmap (v & [=] & _)%list_elem_of_fmap.
  - apply NoDup_fmap_2; [by intros ?? [=]|done].
Qed.

Lemma length_all_bits (n : nat) : length (all_bits n) = 2 ^ n.
Proof.
  induction n as [|n IH]; [done|].
  change (length (((λ u, 0 :: u) <$> all_bits n)
                  ++ ((λ u, 1 :: u) <$> all_bits n)) = 2 ^ S n).
  rewrite length_app, !length_fmap. unfold node in *. rewrite IH.
  simpl. lia.
Qed.

(** X12: the mesh and the torus of size [n] have [n * n] nodes, the
    hypercube of dimension [n >= 1] has [2 ^ n]; the hypercube of dimension
    0 is the empty graph. *)
Theorem topology_node_count (n : nat) :
  length (nodes (generate_topology Mesh n)) = n * n
  ∧ length (nodes (generate_topology Torus n)) = n * n
  ∧ (1 ≤ n → length (nodes (generate_topology Hypercube n)) = 2 ^ n)
  ∧ nodes (generate_topology Hypercube 0) = [].
Proof.
  assert (Hgrid : ∀ periodic,
            length (nodes (grid_2d_graph n n periodic)) = n * n).
  { intros periodic. rewrite <- length_grid_nodes.
    apply Permutation_length, NoDup_Permutation.
    - rewrite grid_2d_graph_build.
      by destruct (build_spec (grid_nodes n n) (grid_edges n n periodic)).
    - apply NoDup_grid_nodes.
    - intros x. by rewrite grid_2d_graph_nodes, grid_nodes_spec. }
  split_and!; [apply Hgrid..| |done].
  intros Hn. simpl.
  destruct (hypercube_graph_hypercube n Hn) as (Hnd & Hnodes & _).
  rewrite <- length_all_bits.
  apply Permutation_length, NoDup_Permutation; [done|apply NoDup_all_bits|].
  intros x. by rewrite Hnodes, all_bits_spec.
Qed.

Lemma topology_node_count_witness :
  1 ≤ 3 ∧ length (nodes (generate_topology Hypercube 3)) = 2 ^ 3.
Proof.
  assert (1 ≤ 3) as H1 by lia.
  split; [exact H1|].
  exact (proj1 (proj2 (proj2 (topology_node_count 3))) H1).
Defined.

Lemma generate_topology_build (topology : Topology) (n : nat) :
  ∃ ns es, generate_topology topology n = build ns es.
Proof.
  destruct topology; simpl.
  - eexists _, _. apply grid_2d_graph_build.
  - eexists _, _. apply grid_2d_graph_build.
  - destruct n as [|k]; simpl.
    + by exists [], [].
    + by eexists _, _.
Qed.

Lemma flips_ne (u v : node) : v ∈ flips u → v ≠ u.
Proof.
  revert v. induction u as [|b u IH]; intros v Hv; simpl in Hv.
  - by apply elem_of_nil in Hv.
  - apply elem_of_cons in Hv as [->|(w & -> & Hw)%list_elem_of_fmap].
    + intros [= ?]. lia.
    + intros [= ->]. by apply (IH u).
Qed.

Lemma flips_spec (u v : node) :
  v ∈ flips u ↔ ∃ k b, u !! k = Some b ∧ v = <[k:=1 - b]> u.
Proof.
  revert v. induction u as [|b0 u IH]; intros v; simpl.
  - rewrite elem_of_nil. split; [done|]. by intros (k & b & ? & _).
  - rewrite elem_of_cons, list_elem_of_fmap. split.
    + intros [->|(w & -> & (k & b & Hk & ->)%IH)].
      * by exists 0, b0.
      * by exists (S k), b.
    + intros (k & b & Hk & ->). destruct k as [|k]; simpl in *.
      * left. by injection Hk as ->.
      * right. eexists. split; [done|]. apply IH. by exists k, b.
Qed.

Lemma mod_succ (n a : nat) :
  a < n → (a + 1) `mod` n = if decide (a + 1 < n) then a + 1 else 0.
Proof.
  intros Ha. case_decide.
  - by apply Nat.mod_small.
  - replace (a + 1) with n by lia. apply Nat.Div0.mod_same.
Qed.

Lemma line_nbrs_open (n a b : nat) :
  a < n → b ∈ line_nbrs n false a ↔ b < n ∧ (b = a + 1 ∨ a = b + 1).
Proof. intros Ha. rewrite line_nbrs_spec by done. split; [lia|]. lia. Qed.

Lemma line_nbrs_ring (n a b : nat) :
  3 ≤ n → a < n →
  b ∈ line_nbrs n true a
  ↔ b < n ∧ (b = (a + 1) `mod` n ∨ a = (b + 1) `mod` n).
Proof.
  intros Hn Ha. split.
  - intros Hb. destruct (line_nbrs_lt n true a b Ha Hb) as [Hbn _].
    apply line_nbrs_spec in Hb; [|done].
    split; [done|]. rewrite !mod_succ by done. repeat case_decide; lia.
  - intros [Hbn Hb]. rewrite !mod_succ in Hb by done.
    apply line_nbrs_spec; [done|]. repeat case_decide; lia.
Qed.

(** X13: each of the three graphs is a simple undirected graph: no node is
    listed twice, no neighbour is listed twice, adjacency is symmetric, no
    node is its own neighbour, and both ends of an edge are nodes. *)
Theorem topology_is_simple_undirected
    (topology : Topology) (n : nat) (u v : node) :
  NoDup (nodes (generate_topology topology n))
  ∧ NoDup (nbrs (generate_topology topology n) u)
  ∧ (v ∈ nbrs (generate_topology topology n) u →
       u ∈ nbrs (generate_topology topology n) v
       ∧ u ≠ v
       ∧ u ∈ nodes (generate_topology topology n)
       ∧ v ∈ nodes (generate_topology topology n)).
Proof.
  split; [apply generate_topology_NoDup|].
  destruct (generate_topology_build topology n) as (ns & es & HG).
  split.
  { rewrite HG. by destruct (build_spec ns es) as (_ & _ & ? & _). }
  intros Hv.
  assert (u ∈ nodes (generate_topology topology n)) as Hu
    by by eapply nbrs_nodes.
  split_and!; [by rewrite HG in *; apply build_symmetric| |done|].
  - intros <-. destruct topology; simpl in *.
    + apply grid_2d_graph_nodes in Hu as (i & j & Hi & Hj & ->).
      apply grid_2d_graph_adj in Hv; [|done..]. unfold grid_nbrs in Hv.
      apply elem_of_app in Hv
        as [(a & [= ->] & Ha)%list_elem_of_fmap|(a & [= ->] & Ha)%list_elem_of_fmap];
        apply line_nbrs_lt in Ha; lia.
    + apply grid_2d_graph_nodes in Hu as (i & j & Hi & Hj & ->).
      apply grid_2d_graph_adj in Hv; [|done..]. unfold grid_nbrs in Hv.
      apply elem_of_app in Hv
        as [(a & [= ->] & Ha)%list_elem_of_fmap|(a & [= ->] & Ha)%list_elem_of_fmap];
        apply line_nbrs_lt in Ha; lia.
    + destruct (decide (n = 0)) as [->|Hn]; [by apply elem_of_nil in Hu|].
      destruct (hypercube_graph_hypercube n ltac:(lia)) as (_ & Hnodes & _ & He).
      apply He in Hv; [|by apply Hnodes]. by apply flips_ne in Hv.
  - by apply (generate_topology_closed topology n u v).
Qed.

Lemma topology_is_simple_undirected_witness :
  [1; 2] ∈ nbrs (generate_topology Torus 3) [1; 0]
  ∧ [1; 0] ∈ nbrs (generate_topology Torus 3) [1; 2]
  ∧ [1; 0] ≠ [1; 2]
  ∧ [1; 0] ∈ nodes (generate_topology Torus 3)
  ∧ [1; 2] ∈ nodes (generate_topology Torus 3).
Proof.
  assert ([1; 2] ∈ nbrs (generate_topology Torus 3) [1; 0]) as H1
    by by_compute.
  split; [exact H1|].
  exact (proj2 (proj2 (topology_is_simple_undirected Torus 3 [1; 0] [1; 2]))
           H1).
Defined.

(** X14: on the mesh of size [n] the neighbours of (i, j) are the nodes of
    the grid one step away along one coordinate; on the torus of size
    [n >= 3] the step is taken modulo [n]. *)
Theorem grid_adjacency (n i j : nat) (v : node) :
  i < n → j < n →
  (v ∈ nbrs (generate_topology Mesh n) [i; j]
   ↔ ∃ i' j', v = [i'; j'] ∧ i' < n ∧ j' < n
       ∧ ((j' = j ∧ (i' = i + 1 ∨ i = i' + 1))
          ∨ (i' = i ∧ (j' = j + 1 ∨ j = j' + 1))))
  ∧ (3 ≤ n →
     (v ∈ nbrs (generate_topology Torus n) [i; j]
      ↔ ∃ i' j', v = [i'; j'] ∧ i' < n ∧ j' < n
          ∧ ((j' = j ∧ (i' = (i + 1) `mod` n ∨ i = (i' + 1) `mod` n))
             ∨ (i' = i ∧ (j' = (j + 1) `mod` n ∨ j = (j' + 1) `mod` n))))).
Proof.
  intros Hi Hj. split; [|intros Hn]; simpl;
    rewrite grid_2d_graph_adj by done; unfold grid_nbrs;
    rewrite elem_of_app, !list_elem_of_fmap.
  - split.
    + intros [(a & -> & Ha)|(a & -> & Ha)];
        apply line_nbrs_open in Ha as [? ?]; try done;
        eexists _, _; (split; [reflexivity|]); split_and!; try done; auto.
    + intros (i' & j' & -> & Hi' & Hj' & [[-> H]|[-> H]]).
      * left. exists i'. split; [done|]. by apply line_nbrs_open.
      * right. exists j'. split; [done|]. by apply line_nbrs_open.
  - split.
    + intros [(a & -> & Ha)|(a & -> & Ha)];
        apply line_nbrs_ring in Ha as [? ?]; try done;
        eexists _, _; (split; [reflexivity|]); split_and!; try done; auto.
    + intros (i' & j' & -> & Hi' & Hj' & [[-> H]|[-> H]]).
      * left. exists i'. split; [done|]. by apply line_nbrs_ring.
      * right. exists j'. split; [done|]. by apply line_nbrs_ring.
Qed.

Lemma grid_adjacency_witness :
  0 < 3 ∧ 2 < 3 ∧ 3 ≤ 3
  ∧ ([0; 0] ∈ nbrs (generate_topology Torus 3) [0; 2]
     ↔ ∃ i' j', [0; 0] = [i'; j'] ∧ i' < 3 ∧ j' < 3
         ∧ ((j' = 2 ∧ (i' = (0 + 1) `mod` 3 ∨ 0 = (i' + 1) `mod` 3))
            ∨ (i' = 0 ∧ (j' = (2 + 1) `mod` 3 ∨ 2 = (j' + 1) `mod` 3)))).
Proof.
  assert (0 < 3) as H1 by lia. assert (2 < 3) as H2 by lia.
  assert (3 ≤ 3) as H3 by lia.
  split; [exact H1|]. split; [exact H2|]. split; [exact H3|].
  exact (proj2 (grid_adjacency 3 0 2 [0; 0] H1 H2) H3).
Defined.

(** X15: the nodes of the hypercube of dimension [n >= 1] are the tuples
    of [n] bits, and the neighbours of a node are the tuples that differ
    from it in exactly one position. *)
Theorem hypercube_adjacency (n : nat) (u v : node) :
  1 ≤ n →
  (u ∈ nodes (generate_topology Hypercube n)
   ↔ length u = n ∧ Forall (λ b, b < 2) u)
  ∧ (u ∈ nodes (generate_topology Hypercube n) →
     (v ∈ nbrs (generate_topology Hypercube n) u
      ↔ ∃ k b, u !! k = Some b ∧ v = <[k:=1 - b]> u)).
Proof.
  intros Hn. simpl.
  destruct (hypercube_graph_hypercube n Hn) as (_ & Hnodes & _ & He).
  split; [apply Hnodes|].
  intros Hu%Hnodes. by rewrite He, flips_spec.
Qed.

Lemma hypercube_adjacency_witness :
  1 ≤ 3
  ∧ [0; 1; 1] ∈ nodes (generate_topology Hypercube 3)
  ∧ ([0; 0; 1] ∈ nbrs (generate_topology Hypercube 3) [0; 1; 1]
     ↔ ∃ k b, [0; 1; 1] !! k = Some b ∧ [0; 0; 1] = <[k:=1 - b]> [0; 1; 1]).
Proof.
  assert (1 ≤ 3) as H1 by lia.
  assert ([0; 1; 1] ∈ nodes (generate_topology Hypercube 3)) as H2
    by by_compute.
  split; [exact H1|]. split; [exact H2|].
  exact (proj2 (hypercube_adjacency 3 [0; 1; 1] [0; 0; 1] H1) H2).
Defined.

(** ** The frames *)

Lemma run_steps_add (G : Graph) (a b : nat) (s : Sim) :
  run_steps G (a + b) s = (run_steps G a s ≫= run_steps G b).
Proof.
  revert s. induction a as [|a IH]; intros s; simpl; [done|].
  destruct (sim_step G s) as [s1|e]; simpl; [apply IH|done].
Qed.

Lemma run_steps_frames (G : Graph) (k : nat) (s s' : Sim) :
  run_steps G k s = Ok s' →
  ∃ fs, frames s' = frames s ++ fs ∧ length fs = k.
Proof.
  revert s. induction k as [|k IH]; intros s; simpl.
  - intros [= <-]. exists []. by rewrite app_nil_r.
  - destruct (sim_step G s) as [s1|e] eqn:Hs; [|done]. simpl.
    intros (fs & -> & Hlen)%IH. apply sim_step_update in Hs as [_ ->].
    exists (node_colors G (packet_list s) :: fs).
    rewrite <- app_assoc. split; [done|]. simpl. lia.
Qed.

(** Frame [j] shows the packets as they are after [j] iterations. *)
Lemma frames_lookup (G : Graph) (t j : nat) (s0 s : Sim) :
  run_steps G t s0 = Ok s → j < t →
  ∃ sj,
    run_steps G j s0 = Ok sj
    ∧ run_steps G (t - j) sj = Ok s
    ∧ frames s !! (length (frames s0) + j)
      = Some (node_colors G (packet_list sj)).
Proof.
  intros Hrun Hj.
  replace t with (j + (t - j)) in Hrun by lia.
  rewrite run_steps_add in Hrun.
  destruct (run_steps G j s0) as [sj|e] eqn:Hsj; [|done]. simpl in Hrun.
  exists sj. split_and!; [done..|].
  destruct (run_steps_frames G j s0 sj Hsj) as (fs & Hfs & Hlen).
  destruct (t - j) as [|k] eqn:Hk; [lia|]. simpl in Hrun.
  destruct (sim_step G sj) as [s1|e] eqn:Hs1; [|done]. simpl in Hrun.
  apply sim_step_update in Hs1 as [_ Hf1].
  destruct (run_steps_frames G k s1 s Hrun) as (fs' & -> & _).
  rewrite Hf1, Hfs, <- !app_assoc.
  rewrite lookup_app_r by lia.
  replace (length (frames s0) + j - length (frames s0)) with (length fs) by lia.
  simpl. by apply list_lookup_middle.
Qed.

Lemma node_colors_orange (G : Graph) (pl : list Packet) (x : nat) :
  node_colors G pl !! x = Some orange
  ↔ ∃ nd p, nodes G !! x = Some nd ∧ p ∈ pl ∧ current p = nd
            ∧ completed p = false ∧ 3 ≤ blocked_steps p.
Proof.
  unfold node_colors. rewrite list_lookup_fmap.
  destruct (nodes G !! x) as [nd|]; simpl;
    [|split; [done|by intros (? & ? & ? & _)]].
  set (here := filter (λ p, current p = nd ∧ completed p = false) pl).
  assert (Hex : existsb (λ p, bool_decide (3 ≤ blocked_steps p)) here = true
                ↔ ∃ p, p ∈ pl ∧ current p = nd ∧ completed p = false
                       ∧ 3 ≤ blocked_steps p).
  { rewrite existsb_exists. split.
    - intros (p & Hp%list_elem_of_In & Hb%bool_decide_eq_true_1).
      apply list_elem_of_filter in Hp as [[? ?] ?]. by exists p.
    - intros (p & Hp & Hc & Hd & Hb). exists p. split.
      + apply list_elem_of_In, list_elem_of_filter. done.
      + by apply bool_decide_eq_true_2. }
  split.
  - intros Hcol. destruct here as [|q here'] eqn:Hhere; [done|].
    destruct (existsb _ (q :: here')) eqn:He; [|done].
    destruct (proj1 Hex eq_refl) as (p & ?). by exists nd, p.
  - intros (nd' & p & [= <-] & Hp). 
    assert (existsb (λ p, bool_decide (3 ≤ blocked_steps p)) here = true)
      as He by (apply Hex; by exists p).
    destruct here as [|q here']; [done|]. by rewrite He.
Qed.

Lemma fresh_blocked_le (G : Graph) (packets : nat) (rnd : nat → nat * nat)
    (pl0 : list Packet) (t : nat) (s : Sim) (p : Packet) :
  create_packets G packets rnd = Ok pl0 →
  run_steps G t {| packet_list := pl0; frames := [] |} = Ok s →
  p ∈ packet_list s →
  blocked_steps p ≤ t.
Proof.
  intros Hnew Hrun [i Hi]%list_elem_of_lookup.
  destruct (run_fresh_invariants G packets rnd pl0 t s i p Hnew Hrun Hi)
    as ((_ & _ & (d & Hpath & _ & Hlast) & _) & [Hopen Hdone] & _).
  assert (blocked_steps p < length (path p)) as Hlt.
  { rewrite Hpath, length_app, length_replicate.
    destruct d; [done|]. simpl. lia. }
  destruct (completed p); [specialize (Hdone eq_refl)|specialize (Hopen eq_refl)];
    lia.
Qed.

(** X16: the run draws one frame per iteration, each with one colour per
    node, and the first three frames show no orange node: a packet cannot
    have been blocked three times before the fourth iteration starts. *)
Theorem no_orange_before_fourth_frame
    (G : Graph) (packets : nat) (rnd : nat → nat * nat)
    (pl0 : list Packet) (t : nat) (s : Sim) (j : nat) (f : list Color) :
  create_packets G packets rnd = Ok pl0 →
  run_steps G t {| packet_list := pl0; frames := [] |} = Ok s →
  frames s !! j = Some f →
  length (frames s) = t
  ∧ length f = length (nodes G)
  ∧ (j < 3 → orange ∉ f).
Proof.
  intros Hnew Hrun Hf.
  destruct (run_steps_update G t _ s Hrun) as [_ Hlen]. simpl in Hlen.
  assert (j < t) as Hj by (apply lookup_lt_Some in Hf; lia).
  destruct (frames_lookup G t j _ s Hrun Hj) as (sj & Hsj & _ & Hfj).
  simpl in Hfj. rewrite Hf in Hfj. injection Hfj as ->.
  split_and!; [done|by unfold node_colors; rewrite length_fmap|].
  intros Hj3 [x Hx]%list_elem_of_lookup.
  apply node_colors_orange in Hx as (nd & p & _ & Hp & _ & _ & Hb).
  pose proof (fresh_blocked_le G packets rnd pl0 j sj p Hnew Hsj Hp). lia.
Qed.

Lemma no_orange_before_fourth_frame_witness :
  create_packets mesh3 1 (λ _, (1, 1)) = Ok (packet_list detour_start)
  ∧ run_steps mesh3 8
      {| packet_list := packet_list detour_start; frames := [] |}
    = Ok (detour_after 8)
  ∧ frames (detour_after 8) !! 2
    = Some [lightblue; lightblue; lightblue; lightblue; lightblue;
            lightblue; lightblue; red; lightblue]
  ∧ length (frames (detour_after 8)) = 8
  ∧ length [lightblue; lightblue; lightblue; lightblue; lightblue;
            lightblue; lightblue; red; lightblue] = length (nodes mesh3)
  ∧ (2 < 3 →
     orange ∉ [lightblue; lightblue; lightblue; lightblue; lightblue;
               lightblue; lightblue; red; lightblue]).
Proof.
  assert (create_packets mesh3 1 (λ _, (1, 1))
          = Ok (packet_list detour_start)) as H1
    by (vm_compute; reflexivity).
  assert (run_steps mesh3 8
            {| packet_list := packet_list detour_start; frames := [] |}
          = Ok (detour_after 8)) as H2 by (vm_compute; reflexivity).
  assert (frames (detour_after 8) !! 2
          = Some [lightblue; lightblue; lightblue; lightblue; lightblue;
                  lightblue; lightblue; red; lightblue]) as H3
    by (vm_compute; reflexivity).
  split; [exact H1|]. split; [exact H2|]. split; [exact H3|].
  exact (no_orange_before_fourth_frame mesh3 1 (λ _, (1, 1))
           (packet_list detour_start) 8 (detour_after 8) 2 _ H1 H2 H3).
Defined.

(** X17: orange does not go away.  If a node is orange in a frame of the
    run, it is orange in every later frame: the packet that made it orange
    never moves again and is never marked. *)
Theorem orange_node_stays_orange
    (G : Graph) (packets : nat) (rnd : nat → nat * nat)
    (pl0 : list Packet) (t : nat) (s : Sim) (j j' x : nat)
    (f : list Color) :
  create_packets G packets rnd = Ok pl0 →
  run_steps G t {| packet_list := pl0; frames := [] |} = Ok s →
  frames s !! j = Some f →
  f !! x = Some orange →
  j ≤ j' < t →
  ∃ f', frames s !! j' = Some f' ∧ f' !! x = Some orange.
Proof.
  intros Hnew Hrun Hf Hx [Hjj' Hj't].
  destruct (frames_lookup G t j _ s Hrun ltac:(lia)) as (sj & Hsj & _ & Hfj).
  destruct (frames_lookup G t j' _ s Hrun Hj't) as (sj' & Hsj' & _ & Hfj').
  simpl in Hfj, Hfj'. rewrite Hf in Hfj. injection Hfj as ->.
  exists (node_colors G (packet_list sj')). split; [done|].
  apply node_colors_orange in Hx as (nd & p & Hnd & Hp & Hcur & Hc & Hb).
  apply list_elem_of_lookup in Hp as [i Hi].
  destruct (run_fresh_invariants G packets rnd pl0 j sj i p Hnew Hsj Hi)
    as ((_ & _ & _ & Hblocked & _) & _ & _).
  destruct Hblocked as (Hnil & Hne & _); [lia|].
  replace j' with (j + (j' - j)) in Hsj' by lia.
  rewrite run_steps_add, Hsj in Hsj'. simpl in Hsj'.
  apply run_steps_update in Hsj' as [Hup _].
  destruct (Forall2_lookup_l _ _ _ _ _ Hup Hi) as (p2 & H2 & Hn).
  destruct (nsteps_update_stuck G _ p p2 Hnil Hn) as (_ & Hcur2 & Hb2 & Hr2).
  assert (is_routed p = true) as Hrouted.
  { unfold is_routed. rewrite Hc. simpl. by apply bool_decide_eq_true_2. }
  rewrite Hrouted in Hb2, Hr2.
  apply node_colors_orange. exists nd, p2.
  split_and!; [done|by eapply list_elem_of_lookup_2|congruence| |lia].
  unfold is_routed in Hr2. by destruct (completed p2).
Qed.

Lemma orange_node_stays_orange_witness :
  create_packets mesh3 1 (λ _, (1, 1)) = Ok (packet_list detour_start)
  ∧ run_steps mesh3 18
      {| packet_list := packet_list detour_start; frames := [] |}
    = Ok (detour_after 18)
  ∧ frames (detour_after 18) !! 8
    = Some [orange; lightblue; lightblue; lightblue; lightblue;
            lightblue; lightblue; lightblue; lightblue]
  ∧ [orange; lightblue; lightblue; lightblue; lightblue;
     lightblue; lightblue; lightblue; lightblue] !! 0 = Some orange
  ∧ 8 ≤ 17 < 18
  ∧ ∃ f', frames (detour_after 18) !! 17 = Some f' ∧ f' !! 0 = Some orange.
Proof.
  assert (create_packets mesh3 1 (λ _, (1, 1))
          = Ok (packet_list detour_start)) as H1
    by (vm_compute; reflexivity).
  assert (run_steps mesh3 18
            {| packet_list := packet_list detour_start; frames := [] |}
          = Ok (detour_after 18)) as H2 by (vm_compute; reflexivity).
  assert (frames (detour_after 18) !! 8
          = Some [orange; lightblue; lightblue; lightblue; lightblue;
                  lightblue; lightblue; lightblue; lightblue]) as H3
    by (vm_compute; reflexivity).
  assert ([orange; lightblue; lightblue; lightblue; lightblue;
           lightblue; lightblue; lightblue; lightblue] !! 0 = Some orange)
    as H4 by reflexivity.
  assert (8 ≤ 17 < 18) as H5 by lia.
  split; [exact H1|]. split; [exact H2|]. split; [exact H3|].
  split; [exact H4|]. split; [exact H5|].
  exact (orange_node_stays_orange mesh3 1 (λ _, (1, 1))
           (packet_list detour_start) 18 (detour_after 18) 8 17 0 _
           H1 H2 H3 H4 H5).
Defined.
